(** * go-matrixbackup: a shallow embedding of the backup engine

    The development follows [main.go], [utils.go] and the later revision of
    the room backup code (the migration of old room directories and the
    retrying credential check).  Go strings are byte strings: they are
    modelled as [list ascii], one [ascii] per byte. *)

From Stdlib Require Import Ascii String List ZArith Lia Bool.
From Stdlib Require Import Sorting.Permutation Sorting.Sorted.
From stdpp Require Import base gmap strings list sorting.
Import ListNotations.
Open Scope Z_scope.

(** Byte strings. *)
Abbreviation bytes := (list ascii).

Definition B (s : string) : bytes := list_ascii_of_string s.

Definition ascii_eqb (a b : ascii) : bool := if ascii_dec a b then true else false.

Fixpoint bytes_eqb (s t : bytes) : bool :=
  match s, t with
  | [], [] => true
  | a :: s', b :: t' => ascii_eqb a b && bytes_eqb s' t'
  | _, _ => false
  end.

(** ** Filename sanitizer ([utils.go], [sanitizeFilename]) *)
Module Sanitize.

(** The character class of [sanitizeRegex]: the bytes [<] [>] [:] [/]
    [\\] [|] [?] [*] [#], the double quote (byte 34) and the control bytes
    0x00 to 0x1F. *)
Definition unsafe_codes : list nat := [60; 62; 58; 34; 47; 92; 124; 63; 42; 35]%nat.

Definition unsafe (c : ascii) : bool :=
  (nat_of_ascii c <? 32)%nat
  || existsb (Nat.eqb (nat_of_ascii c)) unsafe_codes.

Definition underscore : ascii := "_"%char.

(** [sanitizeRegex.ReplaceAllString(name, "_")]: every byte of the class
    is a single-byte match, so the replacement is a byte map. *)
Definition replace_unsafe (s : bytes) : bytes :=
  map (fun c => if unsafe c then underscore else c) s.

(** [multiUnderscoreRegex.ReplaceAllString(s, "_")] with [__+]: each
    maximal run of two or more underscores becomes one underscore; a single
    underscore is left as it is.  [prev] records that the byte before was an
    underscore that has been kept. *)
Fixpoint collapse_aux (prev : bool) (s : bytes) : bytes :=
  match s with
  | [] => []
  | c :: s' =>
      if ascii_eqb c underscore
      then (if prev then collapse_aux true s' else c :: collapse_aux true s')
      else c :: collapse_aux false s'
  end.

Definition collapse (s : bytes) : bytes := collapse_aux false s.

(** [strings.Trim(s, "_ .")]: the cut set is ASCII, so the Go library trims
    bytes, first on the left and then on the right. *)
Definition cut (c : ascii) : bool := existsb (ascii_eqb c) (B "_ .").

Fixpoint trim_left (s : bytes) : bytes :=
  match s with
  | [] => []
  | c :: s' => if cut c then trim_left s' else s
  end.

Definition trim_right (s : bytes) : bytes := rev (trim_left (rev s)).

Definition trim (s : bytes) : bytes := trim_right (trim_left s).

Definition sanitizeFilename (name : bytes) : bytes :=
  let sanitized := replace_unsafe name in
  let sanitized := collapse sanitized in
  let sanitized := trim sanitized in
  match sanitized with
  | [] => [underscore]
  | _ => sanitized
  end.

(** The earlier revision in [main.go] collapses [_+] instead of [__+];
    replacing a single underscore by an underscore changes nothing, so the
    byte map is the same [collapse]. *)

(** The bytes the sanitizer keeps wherever they occur. *)
Definition keepable (c : ascii) : bool := negb (unsafe c) && negb (cut c).

End Sanitize.

(** ** Directory keys ([backupRoom] and [mergeOldRoomData]) *)
Module DirKey.
Import Sanitize.

(** [roomDirName := sanitizedName + ":" + roomID.String()]. *)
Definition roomDirName (roomName roomID : bytes) : bytes :=
  sanitizeFilename roomName ++ B ":" ++ roomID.

(** [strings.HasPrefix]. *)
Fixpoint has_prefix (s p : bytes) : bool :=
  match p, s with
  | [], _ => true
  | a :: p', b :: s' => ascii_eqb a b && has_prefix s' p'
  | _ :: _, [] => false
  end.

(** [strings.LastIndex(s, sub)]: the largest [i] with [s[i:i+len(sub)] =
    sub], or [-1] (here [None]). *)
Fixpoint last_index (s sub : bytes) : option nat :=
  match s with
  | [] => if has_prefix [] sub then Some 0%nat else None
  | c :: s' =>
      match last_index s' sub with
      | Some i => Some (S i)
      | None => if has_prefix s sub then Some 0%nat else None
      end
  end.

(** The room id a directory name carries, as [mergeOldRoomData] extracts
    it: [dirName[separatorIndex+1:]] after [LastIndex(dirName, ":!")]. *)
Definition extractRoomID (dirName : bytes) : option bytes :=
  match last_index dirName (B ":!") with
  | None => None
  | Some i => Some (skipn (S i) dirName)
  end.

(** The candidate test of [mergeOldRoomData]. *)
Definition is_candidate (roomID currentRoomDirName dirName : bytes) : bool :=
  match extractRoomID dirName with
  | None => false
  | Some extracted =>
      bytes_eqb extracted roomID && negb (bytes_eqb dirName currentRoomDirName)
  end.

(** A Matrix room id as the claim takes it: it starts with ['!'] and has no
    [":!"] inside. *)
Definition room_id_ok (roomID : bytes) : Prop :=
  head roomID = Some "!"%char /\ last_index roomID (B ":!") = None.

End DirKey.

(** ** UTC dates ([processEvents]: [time.UnixMilli(ts).UTC().Format("2006-01-02")]) *)
Module Date.

(** [time.UnixMilli(msec)] is [Unix(msec/1e3, (msec%1e3)*1e6)] with Go's
    truncating division; [time.Unix] then moves a negative nanosecond part
    into the seconds. *)
Definition unix_milli_seconds (msec : Z) : Z :=
  let sec := Z.quot msec 1000 in
  let nsec := Z.rem msec 1000 * 1000000 in
  if (nsec <? 0) || (1000000000 <=? nsec) then
    let n := Z.quot nsec 1000000000 in
    let sec := sec + n in
    let nsec := nsec - n * 1000000000 in
    if nsec <? 0 then sec - 1 else sec
  else sec.

(** Days since 1970-01-01 of a UTC instant (the time package counts whole
    days from an absolute epoch that lies on a day boundary). *)
Definition unix_days (sec : Z) : Z := sec / 86400.

(** The proleptic Gregorian date of a day number, in 400-year eras (the
    computation of the time package's [absDate], written in the form of
    the civil-from-days algorithm). *)
(** Inside an era: year of era (from March), month and day of the day of
    era [doe]. *)
Definition civil_of_doe (doe : Z) : Z * Z * Z :=
  let yoe := (doe - doe / 1460 + doe / 36524 - doe / 146096) / 365 in
  let doy := doe - (365 * yoe + yoe / 4 - yoe / 100) in
  let mp := (5 * doy + 2) / 153 in
  let d := doy - (153 * mp + 2) / 5 + 1 in
  let m := if mp <? 10 then mp + 3 else mp - 9 in
  (yoe, m, d).

Definition civil_from_days (z : Z) : Z * Z * Z :=
  let z := z + 719468 in
  let era := z / 146097 in
  let doe := z - era * 146097 in
  let '(yoe, m, d) := civil_of_doe doe in
  let y := yoe + era * 400 in
  (if m <=? 2 then y + 1 else y, m, d).

Definition digit (u : Z) : ascii := ascii_of_nat (48 + Z.to_nat u).

(** The digit loop of the time package's [appendInt], on its 20-byte
    buffer: the decimal digits of [u >= 0], most significant first. *)
Fixpoint digits_aux (fuel : nat) (u : Z) (acc : bytes) : bytes :=
  match fuel with
  | O => acc
  | S fuel' =>
      if 10 <=? u then digits_aux fuel' (u / 10) (digit (u mod 10) :: acc)
      else digit u :: acc
  end.

Definition digits (u : Z) : bytes := digits_aux 20 u [].

(** [appendInt(b, x, width)]: a sign, zero padding up to [width], the
    digits. *)
Definition appendInt (x : Z) (width : nat) : bytes :=
  let sign := if x <? 0 then B "-" else [] in
  let ds := digits (Z.abs x) in
  sign ++ repeat "0"%char (width - length ds) ++ ds.

(** [Format("2006-01-02")]. *)
Definition format_date (ymd : Z * Z * Z) : bytes :=
  let '(y, m, d) := ymd in
  appendInt y 4 ++ B "-" ++ appendInt m 2 ++ B "-" ++ appendInt d 2.

(** The day directory of an event timestamp in milliseconds. *)
Definition dateStr (ts : Z) : string :=
  string_of_list_ascii (format_date (civil_from_days (unix_days (unix_milli_seconds ts)))).

(** Go's [int64]. *)
Definition int64_range (x : Z) : Prop := - 2 ^ 63 <= x < 2 ^ 63.

End Date.

(** ** Storage layer: events, files and the effect monad *)
Module Store.
Import Sanitize DirKey Date.

(** An event as stored by the backup: the fields the code looks at
    ([ID], [Timestamp]) and the rest of the JSON object. *)
Record Event := mkEvent { ev_id : string; ev_ts : Z; ev_body : string }.

#[global] Instance Event_eq_dec : EqDecision Event.
Proof. intros [a b c] [a' b' c']. solve_decision. Defined.

(** What a JSON file on disk decodes to: an event array (a day file),
    a [Metadata] object, or bytes that decode to neither. *)
Inductive content :=
| CEvents (l : list Event)
| CMeta (next_token : string)
| CRaw (b : bytes).

Inductive entry := EFile (c : content) | EDir.

(** A path is the list of its components; the file system maps each
    existing path (below the working directory) to a file or directory. *)
Abbreviation path := (list string).
Abbreviation fsys := (gmap path entry).

#[local] Set Warnings "-register-all".
Inductive error :=
| ENOENT (p : path)
| ENOTDIR (p : path)
| EISDIR (p : path)
| EDecode (p : path)
| EFetch (tok : string)
| EFuel
| EMerge (es : list error).

(** Observable actions, in order: requests to the server, files written,
    directories removed, sleeps. *)
Inductive action :=
| AFetch (tok : string)
| AWrite (p : path) (c : content)
| ARemoveAll (p : path)
| ASleep.

Inductive result (A : Type) := Ok (a : A) | Err (e : error).
Arguments Ok {A} a.
Arguments Err {A} e.

(** [w_tick] counts the [range] statements over Go maps executed so far; a
    [MapOrder] turns it into the iteration order Go picks for that loop. *)
Record World := mkWorld { w_fs : fsys; w_trace : list action; w_tick : nat }.

Definition M (A : Type) : Type := World -> result A * World.

Definition ret {A} (a : A) : M A := fun w => (Ok a, w).
Definition fail {A} (e : error) : M A := fun w => (Err e, w).
Definition bind {A B} (m : M A) (k : A -> M B) : M B :=
  fun w => match m w with (Ok a, w') => k a w' | (Err e, w') => (Err e, w') end.
Definition try {A} (m : M A) : M (result A) :=
  fun w => let '(r, w') := m w in (Ok r, w').

Notation "'let*' x ':=' m 'in' k" := (bind m (fun x => k))
  (at level 200, x name, m at level 100, k at level 200).

Definition emit (a : action) : M unit :=
  fun w => (Ok tt, mkWorld (w_fs w) (w_trace w ++ [a]) (w_tick w)).
Definition tick : M nat :=
  fun w => (Ok (w_tick w), mkWorld (w_fs w) (w_trace w) (S (w_tick w))).
Definition get_fs : M fsys := fun w => (Ok (w_fs w), w).
Definition put_fs (fs : fsys) : M unit :=
  fun w => (Ok tt, mkWorld fs (w_trace w) (w_tick w)).

Fixpoint mapM_ {X} (f : X -> M unit) (l : list X) : M unit :=
  match l with
  | [] => ret tt
  | x :: r => let* _ := f x in mapM_ f r
  end.

(** *** File system calls *)

(** The non-empty prefixes of a path, shortest first. *)
Fixpoint prefixes_aux (acc p : path) : list path :=
  match p with
  | [] => []
  | c :: r => (acc ++ [c]) :: prefixes_aux (acc ++ [c]) r
  end.
Definition prefixes (p : path) : list path := prefixes_aux [] p.

Definition is_file (fs : fsys) (q : path) : bool :=
  match fs !! q with Some (EFile _) => true | _ => false end.

(** The error of opening a missing path: a file on the way gives
    [ENOTDIR], otherwise [ENOENT]. *)
Definition missing_error (fs : fsys) (p : path) : error :=
  if existsb (is_file fs) (prefixes (removelast p)) then ENOTDIR p else ENOENT p.

(** [os.MkdirAll]: walk the prefixes, creating missing directories; a file
    on the way is [ENOTDIR]. *)
Fixpoint mkdir_walk (qs : list path) (fs : fsys) : result fsys :=
  match qs with
  | [] => Ok fs
  | q :: qs' =>
      match fs !! q with
      | Some EDir => mkdir_walk qs' fs
      | Some (EFile _) => Err (ENOTDIR q)
      | None => mkdir_walk qs' (<[q := EDir]> fs)
      end
  end.

Definition mkdirAll (p : path) : M unit :=
  let* fs := get_fs in
  match mkdir_walk (prefixes p) fs with
  | Ok fs' => put_fs fs'
  | Err e => fail e
  end.

(** [os.ReadFile]. *)
Definition readFile (p : path) : M content :=
  let* fs := get_fs in
  match fs !! p with
  | Some (EFile c) => ret c
  | Some EDir => fail (EISDIR p)
  | None => fail (missing_error fs p)
  end.

(** [os.WriteFile] at the level of whole files: the parent must be a
    directory and the path not one; the file is created or replaced in one
    step. The failures modelled are those of [OpenFile], which leave the
    disk as it was. A write call failing after [O_TRUNC] (which leaves the
    file truncated) and the contents seen during the write are not
    modelled here; [Disk.osWriteFile] models them. *)
Definition write_fs (p : path) (c : content) (fs : fsys) : result fsys :=
  match fs !! p with
  | Some EDir => Err (EISDIR p)
  | _ =>
      match removelast p with
      | [] => Ok (<[p := EFile c]> fs)
      | d =>
          match fs !! d with
          | Some EDir => Ok (<[p := EFile c]> fs)
          | Some (EFile _) => Err (ENOTDIR p)
          | None => Err (missing_error fs p)
          end
      end
  end.

Definition writeFile (p : path) (c : content) : M unit :=
  let* fs := get_fs in
  match write_fs p c fs with
  | Ok fs' => let* _ := put_fs fs' in emit (AWrite p c)
  | Err e => fail e
  end.

(** [os.RemoveAll] when it succeeds: every path below [p], and [p]
    itself, is removed. Its failures, which can come after a partial
    removal, are not modelled. *)
Definition remove_fs (p : path) (fs : fsys) : fsys :=
  filter (fun kv : path * entry => ~ prefix p kv.1) fs.

Definition removeAll (p : path) : M unit :=
  let* fs := get_fs in
  let* _ := put_fs (remove_fs p fs) in
  emit (ARemoveAll p).

(** [os.ReadDir]: the entries directly below [p], sorted by name. *)
Fixpoint strip (p k : path) : option path :=
  match p, k with
  | [], _ => Some k
  | x :: p', y :: k' => if String.eqb x y then strip p' k' else None
  | _ :: _, [] => None
  end.

Definition child (p : path) (kv : path * entry) : option (string * entry) :=
  match strip p kv.1 with Some [n] => Some (n, kv.2) | _ => None end.

Definition name_le (a b : string * entry) : Prop := String.leb a.1 b.1 = true.

#[global] Instance name_le_dec : RelDecision name_le.
Proof. intros a b. unfold name_le. apply _. Defined.

Definition readDir (p : path) : M (list (string * entry)) :=
  let* fs := get_fs in
  match fs !! p with
  | Some EDir => ret (merge_sort name_le (omap (child p) (map_to_list fs)))
  | Some (EFile _) => fail (ENOTDIR p)
  | None => fail (missing_error fs p)
  end.

End Store.

(** ** Room backup ([main.go]; the migration from the later revision) *)
Module Backup.
Import Sanitize DirKey Date Store.

Definition metadataFilename : string := "metadata.json".
Definition dataFilename : string := "data.json".

(** The iteration orders Go picks for [range] over a map, given the
    counter of map loops run so far and the entries of the map. *)
Record MapOrder := {
  range_dates : nat -> list (string * list Event) -> list (string * list Event);
  range_ids : nat -> list (string * Event) -> list (string * Event)
}.

Definition MapOrder_ok (mo : MapOrder) : Prop :=
  (forall n l, Permutation (range_dates mo n l) l) /\
  (forall n l, Permutation (range_ids mo n l) l).

(** The server's [/messages] endpoint, read forward from a token: the chunk
    and its end token, or [None] when the request fails. *)
Definition Remote : Type := string -> option (list Event * string).

(** [time.UnixMilli(evt.Timestamp).UTC().Format("2006-01-02")]. *)
Definition dateOf (e : Event) : string := dateStr (ev_ts e).

Definition group_by_date (events : list Event) : gmap string (list Event) :=
  fold_left (fun m e =>
    let d := dateOf e in
    <[d := match m !! d with Some l => l ++ [e] | None => [e] end]> m) events ∅.

Definition ins (m : gmap string Event) (e : Event) : gmap string Event :=
  <[ev_id e := e]> m.

(** [sort.SliceStable] on [Timestamp]: insertion that keeps an element
    before every later element with the same timestamp. *)
Fixpoint insert_stable (e : Event) (l : list Event) : list Event :=
  match l with
  | [] => [e]
  | x :: r => if ev_ts e <=? ev_ts x then e :: l else x :: insert_stable e r
  end.

Definition sliceStable (l : list Event) : list Event := fold_right insert_stable [] l.

Section Program.
Variable mo : MapOrder.

(** Existing events of a day file: a missing file or one that does not
    decode counts as empty; any other read error is returned. *)
Definition readExisting (dataPath : path) : M (list Event) :=
  let* r := try (readFile dataPath) in
  match r with
  | Ok (CEvents l) => ret l
  | Ok _ => ret []
  | Err (ENOENT _) => ret []
  | Err e => fail e
  end.

Definition processDay (roomPath : path) (de : string * list Event) : M unit :=
  let '(d, dailyEvents) := de in
  let datePath := roomPath ++ [d] in
  let* _ := mkdirAll datePath in
  let dataPath := datePath ++ [dataFilename] in
  let* existingEvents := readExisting dataPath in
  let merged := fold_left ins dailyEvents (fold_left ins existingEvents ∅) in
  let* n := tick in
  let finalEvents := map snd (range_ids mo n (map_to_list merged)) in
  writeFile dataPath (CEvents (sliceStable finalEvents)).

Definition processEvents (roomPath : path) (events : list Event) : M unit :=
  let eventsByDate := group_by_date events in
  let* n := tick in
  mapM_ (processDay roomPath) (range_dates mo n (map_to_list eventsByDate)).

(** [readMetadata]: the stored token, [""] when the file is missing. *)
Definition readMetadata (roomPath : path) : M string :=
  let metaPath := roomPath ++ [metadataFilename] in
  let* r := try (readFile metaPath) in
  match r with
  | Ok (CMeta t) => ret t
  | Ok _ => fail (EDecode metaPath)
  | Err (ENOENT _) => ret ""%string
  | Err e => fail e
  end.

Definition writeMetadata (roomPath : path) (tok : string) : M unit :=
  writeFile (roomPath ++ [metadataFilename]) (CMeta tok).

(** A failed write is only logged. *)
Definition updateMetadataToken (roomPath : path) (old newToken : string) : M unit :=
  if String.eqb newToken old then ret tt
  else let* _ := try (writeMetadata roomPath newToken) in ret tt.

Variable remote : Remote.

(** [fetchAndProcessRoomMessages]; [fuel] bounds the number of requests,
    running out of it stands for a loop that does not return. *)
Fixpoint fetch_loop (fuel : nat) (roomPath : path) (currentToken : string)
    (totalFetched : nat) : M (string * nat * option error) :=
  match fuel with
  | O => ret (currentToken, totalFetched, Some EFuel)
  | S fuel' =>
      let* _ := emit (AFetch currentToken) in
      match remote currentToken with
      | None => ret (currentToken, totalFetched, Some (EFetch currentToken))
      | Some (chunk, nextToken) =>
          match chunk with
          | [] => ret (currentToken, totalFetched, None)
          | _ :: _ =>
              let* r := try (processEvents roomPath chunk) in
              match r with
              | Err e => ret (currentToken, totalFetched, Some e)
              | Ok _ =>
                  let total' := (totalFetched + length chunk)%nat in
                  if String.eqb currentToken nextToken then ret (currentToken, total', None)
                  else let* _ := emit ASleep in
                       fetch_loop fuel' roomPath nextToken total'
              end
          end
      end
  end.

Definition room_dir (roomName roomID : string) : string :=
  string_of_list_ascii (roomDirName (list_ascii_of_string roomName) (list_ascii_of_string roomID)).

(** [backupRoom] of [main.go], for a room whose name lookup succeeded. *)
Definition backupRoom (fuel : nat) (backupDir : path) (roomName roomID : string) : M unit :=
  let roomPath := backupDir ++ [room_dir roomName roomID] in
  let* _ := mkdirAll roomPath in
  let* tok := readMetadata roomPath in
  let* res := fetch_loop fuel roomPath tok 0 in
  let '(finalToken, _, err) := res in
  match err with
  | Some e => fail e
  | None => updateMetadataToken roomPath tok finalToken
  end.

(** [processSingleOldDirectory]: collect the events of the [.json] files
    directly in the old directory (subdirectories and the metadata file
    are skipped, unreadable files recorded), merge them, then remove it. *)
Definition has_suffix (s suf : string) : bool :=
  let a := list_ascii_of_string s in let b := list_ascii_of_string suf in
  (length b <=? length a)%nat && bytes_eqb (skipn (length a - length b) a) b.

Fixpoint collect_events (oldDirPath : path) (files : list (string * entry))
    : M (list Event * list error) :=
  match files with
  | [] => ret ([], [])
  | (name, kind) :: rest =>
      let* here :=
        match kind with
        | EDir => ret ([], [])
        | EFile _ =>
            if String.eqb name metadataFilename then ret ([], [])
            else if negb (has_suffix name ".json") then ret ([], [])
            else
              let filePath := oldDirPath ++ [name] in
              let* r := try (readFile filePath) in
              match r with
              | Err e => ret ([], [e])
              | Ok (CEvents l) => ret (l, [])
              | Ok _ => ret ([], [EDecode filePath])
              end
        end in
      let* acc := collect_events oldDirPath rest in
      ret (here.1 ++ acc.1, here.2 ++ acc.2)
  end.

Definition processSingleOldDirectory (backupDir : path) (oldDirName : string)
    (targetRoomPath : path) : M unit :=
  let oldDirPath := backupDir ++ [oldDirName] in
  let* files := readDir oldDirPath in
  let* collected := collect_events oldDirPath files in
  let allEvents := collected.1 in
  let* _ := match allEvents with
            | [] => ret tt
            | _ :: _ => processEvents targetRoomPath allEvents
            end in
  removeAll oldDirPath.

(** [mergeOldRoomData]: every other directory whose key names [roomID]. *)
Fixpoint merge_candidates (backupDir : path) (roomID currentRoomDirName : string)
    (targetRoomPath : path) (entries : list (string * entry)) : M (list error) :=
  match entries with
  | [] => ret []
  | (dirName, kind) :: rest =>
      let* here :=
        match kind with
        | EFile _ => ret []
        | EDir =>
            if is_candidate (list_ascii_of_string roomID) (list_ascii_of_string currentRoomDirName)
                 (list_ascii_of_string dirName)
            then
              let* r := try (processSingleOldDirectory backupDir dirName targetRoomPath) in
              match r with Ok _ => ret [] | Err e => ret [e] end
            else ret []
        end in
      let* more := merge_candidates backupDir roomID currentRoomDirName targetRoomPath rest in
      ret (here ++ more)
  end.

Definition mergeOldRoomData (backupDir : path) (roomID currentRoomDirName : string)
    (targetRoomPath : path) : M unit :=
  let* r := try (readDir backupDir) in
  match r with
  | Err (ENOENT _) => ret tt
  | Err e => fail e
  | Ok dirEntries =>
      let* errs := merge_candidates backupDir roomID currentRoomDirName targetRoomPath dirEntries in
      match errs with [] => ret tt | _ :: _ => fail (EMerge errs) end
  end.

End Program.
End Backup.

(** ** Views of the model used in the statements *)
Module View.
Import Date Store Backup.

(** The events a day file of the room holds, as [processEvents] reads
    them back: a missing or undecodable file holds none. *)
Definition shard (roomPath : path) (fs : fsys) (d : string) : list Event :=
  match fs !! (roomPath ++ [d; dataFilename]) with
  | Some (EFile (CEvents l)) => l
  | _ => []
  end.

(** The room directory and its ancestors are directories, no day entry is
    a file and no day file is a directory. *)
Definition room_ok (roomPath : path) (fs : fsys) : Prop :=
  (forall q, In q (prefixes roomPath) -> fs !! q = Some EDir) /\
  (forall d c, fs !! (roomPath ++ [d]) <> Some (EFile c)) /\
  (forall d, fs !! (roomPath ++ [d; dataFilename]) <> Some EDir).

(** The union of merged batches, deduplicated by id: the last merged copy
    of each id. *)
Definition latest_by_id (l : list Event) (k : string) : option Event :=
  last (List.filter (fun e => String.eqb (ev_id e) k) l).

Definition same_day (d : string) (e : Event) : bool := String.eqb (dateOf e) d.

Definition ts_le (a b : Event) : Prop := ev_ts a <= ev_ts b.

(** A sequence of [processEvents] calls on one room, one per batch. *)
Fixpoint process_batches (mo : MapOrder) (roomPath : path) (batches : list (list Event)) : M unit :=
  match batches with
  | [] => ret tt
  | b :: bs => let* _ := processEvents mo roomPath b in process_batches mo roomPath bs
  end.

Definition meta_write (roomPath : path) (a : action) : Prop :=
  exists c, a = AWrite (roomPath ++ [metadataFilename]) c.

Definition data_write (roomPath : path) (a : action) : Prop :=
  exists d c, a = AWrite (roomPath ++ [d; dataFilename]) c.

Definition fetched (a : action) : option string :=
  match a with AFetch t => Some t | _ => None end.

(** The token of the last request in a trace. *)
Definition last_fetch (ws : list action) : option string := last (omap fetched ws).

(** The world after one more action, as [emit] leaves it. *)
Definition with_action (w : World) (a : action) : World :=
  mkWorld (w_fs w) (w_trace w ++ [a]) (w_tick w).

(** A non-empty page the fetch loop merged: the events the server sent,
    the token it returned with them, and the world after the merge. *)
Record page := mkPage { pg_chunk : list Event; pg_next : string; pg_merged : World }.

(** A run of the fetch loop from world [w] and token [cur] that ended
    without error on token [t] in world [w'], page by page: each page of
    [ps] is what the server answered for the token in effect, is
    non-empty and was merged by [processEvents] with result [Ok]; the loop
    then ends on a page whose token is unchanged, or sleeps and requests
    the next token. With no page left, the last request got an empty
    page. *)
Fixpoint merged_pages (mo : MapOrder) (remote : Remote) (rp : path) (w : World) (cur : string)
    (ps : list page) (t : string) (w' : World) : Prop :=
  match ps with
  | [] => t = cur /\ w' = with_action w (AFetch cur) /\ exists nxt, remote cur = Some ([], nxt)
  | p :: ps' =>
      remote cur = Some (pg_chunk p, pg_next p) /\ pg_chunk p <> [] /\
      processEvents mo rp (pg_chunk p) (with_action w (AFetch cur)) = (Ok tt, pg_merged p) /\
      (if String.eqb cur (pg_next p) then ps' = [] /\ t = cur /\ w' = pg_merged p
       else merged_pages mo remote rp (with_action (pg_merged p) ASleep) (pg_next p) ps' t w')
  end.

(** The actions a run appended to the trace. *)
Definition appended (w w' : World) (ws : list action) : Prop := w_trace w' = w_trace w ++ ws.

(** Go's unspecified map order taken as the order the map lists its entries. *)
Definition listed_order : MapOrder :=
  {| range_dates := fun _ l => l; range_ids := fun _ l => l |}.

(** Every entry of a map built by [ins] sits at its event's id. *)
Definition id_keyed (m : gmap string Event) : Prop :=
  forall k e, m !! k = Some e -> ev_id e = k.

(** A list with distinct ids holding exactly the entries of a map. *)
Definition represents (l : list Event) (m : gmap string Event) : Prop :=
  NoDup (map ev_id l) /\ forall k e, m !! k = Some e <-> In e l /\ ev_id e = k.

(** The two batches of the worked example: [e1] and [e2] at 100 ms, then
    [e1] again and [e3] at 200 ms, all on 1970-01-01. *)
Definition batchA : list Event :=
  [mkEvent "e1" 100 EmptyString; mkEvent "e2" 100 EmptyString].
Definition batchB : list Event :=
  [mkEvent "e1" 100 EmptyString; mkEvent "e3" 200 EmptyString].

(** A backup directory holding one empty room directory. *)
Definition room0 : path := ["backup"; "room"].
Definition world0 : World :=
  mkWorld (<[["backup"; "room"] := EDir]> (<[["backup"] := EDir]> ∅)) [] 0.

(** The same room after one run stored [e1] (body [a]) on 1970-01-01,
    and a later batch carrying [e1] again with body [b]. *)
Definition world1 : World :=
  mkWorld (<[["backup"; "room"; "1970-01-01"; "data.json"] :=
               EFile (CEvents [mkEvent "e1" 100 "a"])]>
          (<[["backup"; "room"; "1970-01-01"] := EDir]> (w_fs world0))) [] 0.
Definition batchC : list Event := [mkEvent "e1" 100 "b"].

(** A computation only appends actions satisfying [Q] to the trace, on
    every outcome. *)
Definition only_actions {A} (Q : action -> Prop) (m : M A) : Prop :=
  forall w r w', m w = (r, w') -> exists ws, w_trace w' = w_trace w ++ ws /\ Forall Q ws.

(** Three pages on the server: [e1] up to token [t1], [e2] up to [t2],
    then nothing; and a backup directory with no room in it yet. *)
Definition ev1 : Event := mkEvent "e1" 1705363199999 "a".
Definition ev2 : Event := mkEvent "e2" 1705363200000 "b".
Definition remote1 : Remote := fun t =>
  if String.eqb t EmptyString then Some ([ev1], "t1"%string)
  else if String.eqb t "t1" then Some ([ev2], "t2"%string)
  else Some ([], "t2"%string).
Definition world_b : World := mkWorld (<[["backup"] := EDir]> ∅) [] 0.

(** The room [Alice:!room1:x] whose entry for the day of [e1] is a file,
    so that merging the first page fails. *)
Definition alice_room : path := ["backup"; "Alice:!room1:x"].
Definition world_bad : World :=
  mkWorld (<[alice_room ++ ["2024-01-15"] := EFile (CRaw [])]>
          (<[alice_room := EDir]> (<[["backup"] := EDir]> ∅))) [] 0.

End View.

Module Disk.
Import Store Backup.

(** The bytes [writeMetadata] hands to [os.WriteFile]: the output of
    [json.MarshalIndent(meta, EmptyString, two spaces)] for
    [Metadata{NextToken: tok}] (tag [next_token]), for a token with no
    character that JSON escapes. *)
Definition metadata_json (tok : string) : bytes :=
  ["{"%char; "010"%char; " "%char; " "%char; "034"%char] ++ list_ascii_of_string "next_token" ++
  ["034"%char; ":"%char; " "%char; "034"%char] ++ list_ascii_of_string tok ++
  ["034"%char; "010"%char; "}"%char].

(** The answers of the kernel to the successive [write(2)] calls on the
    open file: [WWrote n] stores [n] more bytes (at most the ones asked
    for), [WFail] is an error return that stores nothing. When the list
    runs out before the data does, the process was stopped (a crash)
    before the next call. *)
Inductive write_answer := WWrote (n : nat) | WFail.

(** The write loop of [poll.FD.Write], which [os.File.Write] runs: it asks
    the kernel to write the [rest] of the data after what the [file]
    already holds, and repeats until every byte is written; it stops on
    an error, and on a call that writes zero bytes
    ([io.ErrUnexpectedEOF]). It returns the successive contents of the
    file after each call that stored bytes, and whether every byte of the
    data was written. *)
Fixpoint fd_write (file rest : bytes) (answers : list write_answer) {struct answers}
    : list bytes * bool :=
  match rest with
  | [] => ([], true)
  | _ :: _ =>
      match answers with
      | [] => ([], false)
      | WFail :: _ => ([], false)
      | WWrote n :: answers' =>
          match Nat.min n (length rest) with
          | O => ([], false)
          | S k' =>
              let file' := file ++ firstn (S k') rest in
              let '(sts, ok) := fd_write file' (skipn (S k') rest) answers' in
              (file' :: sts, ok)
          end
      end
  end.

(** [os.WriteFile(name, data, perm)] of the Go library:
    [OpenFile(name, O_WRONLY|O_CREATE|O_TRUNC, perm)], then [f.Write(data)],
    then [f.Close()]. [opened] is the outcome of [OpenFile]: when it fails
    the file is untouched. When it succeeds, the file is created or
    truncated to zero bytes in place (there is no temporary file and no
    rename), and the write loop fills it. The result lists the successive
    contents of [name] a concurrent reader, or the disk after a crash, can
    see ([None]: missing), from the [old] one on, and whether the write
    loop wrote every byte. [Close] does not change the content. *)
Definition osWriteFile (old : option bytes) (data : bytes) (opened : bool)
    (answers : list write_answer) : list (option bytes) * bool :=
  if opened then
    let '(sts, ok) := fd_write [] data answers in
    (old :: Some [] :: map Some sts, ok)
  else ([old], false).

(** The contents of the metadata file while [writeMetadata] stores [tok]
    over [old], with the outcomes of the system calls of [os.WriteFile]. *)
Definition writeMetadata_states (old : option bytes) (tok : string) (opened : bool)
    (answers : list write_answer) : list (option bytes) * bool :=
  osWriteFile old (metadata_json tok) opened answers.

End Disk.

(** The credential check of [initializeMatrixClient] in
    [src/unnamed/part_000]: [client.Whoami] is called in a loop, and each
    failure is classified as retryable or not. The [main.go] copy of the
    function calls [Whoami] once and fails on any error. The field
    [cli.MaxWhoamiRetries] read by the loop is not declared in the [CLI]
    struct of [src/], so it is an argument here. *)
Module Handshake.

Definition lower_ascii (c : ascii) : ascii :=
  let n := nat_of_ascii c in
  if (65 <=? n)%nat && (n <=? 90)%nat then ascii_of_nat (n + 32) else c.

(** [strings.ToLower] on ASCII text. *)
Definition toLower (s : bytes) : bytes := map lower_ascii s.

Fixpoint has_prefix (s pre : bytes) : bool :=
  match pre, s with
  | [], _ => true
  | a :: pre', b :: s' => ascii_eqb a b && has_prefix s' pre'
  | _ :: _, [] => false
  end.

(** [strings.Contains]. *)
Fixpoint contains (s sub : bytes) : bool :=
  has_prefix s sub || match s with [] => false | _ :: s' => contains s' sub end.

(** The error wrapped by a [*url.Error] or a [*net.OpError]: whether it
    is [io.EOF] or [syscall.ECONNREFUSED], and its message. *)
Record inner := mkInner { in_eof : bool; in_econnrefused : bool; in_msg : bytes }.

(** How the [switch] of the loop sees an error: [errors.As] a [*url.Error],
    else [errors.As] a [*net.OpError], else [errors.Is] [io.EOF], else none. *)
Inductive net_class := NUrl (i : inner) | NNetOp (i : inner) | NEOF | NOther.

(** A [Whoami] error: its class, and the status code when it is a
    [mautrix.HTTPError] with a non-nil [Response]. *)
Record WhoamiErr := mkWErr { we_class : net_class; we_status : option Z }.

Definition url_retryable (i : inner) : bool :=
  let m := toLower (in_msg i) in
  in_eof i || in_econnrefused i ||
  contains m (list_ascii_of_string "timed out") || contains m (list_ascii_of_string "no such host").

Definition netop_retryable (i : inner) : bool :=
  let m := toLower (in_msg i) in
  in_econnrefused i || contains m (list_ascii_of_string "connection refused") ||
  contains m (list_ascii_of_string "no such host") ||
  contains m (list_ascii_of_string "network is unreachable").

Definition isRetryable (e : WhoamiErr) : bool :=
  let base := match we_class e with
              | NUrl i => url_retryable i
              | NNetOp i => netop_retryable i
              | NEOF => true
              | NOther => false
              end in
  match we_status e with
  | Some c =>
      if (400 <=? c) && (c <? 500) && negb (c =? 429) then false
      else if (500 <=? c) || (c =? 429) then true
      else base
  | None => base
  end.

(** [matrixConnectionRetryDelay = 10 * time.Second], in milliseconds. *)
Definition matrixConnectionRetryDelay : Z := 10000.

Inductive hs_action := HWhoami (attempt : Z) | HSleep (ms : Z).

Inductive hs_outcome := HOk | HFatal (e : WhoamiErr) | HGaveUp (e : WhoamiErr) | HFuel.

(** The loop from [retryCount] on; [whoami n] is the answer of the server
    to the call made when [retryCount = n] ([None]: success). *)
Fixpoint whoami_loop (fuel : nat) (maxWhoamiRetries : Z) (whoami : Z -> option WhoamiErr)
    (retryCount : Z) : list hs_action * hs_outcome :=
  match fuel with
  | O => ([], HFuel)
  | S fuel' =>
      match whoami retryCount with
      | None => ([HWhoami retryCount], HOk)
      | Some e =>
          if isRetryable e then
            if (0 <? maxWhoamiRetries) && (maxWhoamiRetries - 1 <=? retryCount) then
              ([HWhoami retryCount], HGaveUp e)
            else
              let '(tr, o) := whoami_loop fuel' maxWhoamiRetries whoami (retryCount + 1) in
              (HWhoami retryCount :: HSleep matrixConnectionRetryDelay :: tr, o)
          else ([HWhoami retryCount], HFatal e)
      end
  end.

(** The trace of [k] retryable failures from [r] on followed by one that
    ends the loop. *)
Fixpoint give_up_trace (r : Z) (k : nat) : list hs_action :=
  match k with
  | O => [HWhoami r]
  | S k' => HWhoami r :: HSleep matrixConnectionRetryDelay :: give_up_trace (r + 1) k'
  end.

Definition is_attempt (a : hs_action) : bool := match a with HWhoami _ => true | _ => false end.
Definition is_sleep (a : hs_action) : bool := match a with HSleep _ => true | _ => false end.

(** A [503 Service Unavailable] answer. *)
Definition e503 : WhoamiErr := mkWErr NOther (Some 503).

(** A server answering [503] to the first call and [429 Too Many
    Requests] to every later one. *)
Definition whoami_503_then_429 (i : Z) : option WhoamiErr :=
  if i =? 0 then Some e503 else Some (mkWErr NOther (Some 429)).

End Handshake.

(** ** Configuration ([config.go]; the same code is in [main.go]) *)
Module Config.
Import Store.

(** [CLI]; [FetchDelay] is a [time.Duration] in nanoseconds. *)
Record CLI := mkCLI {
  Server : string; User : string; Token : string; DeviceID : string;
  ConfigFile : string; FetchDelay : Z; BackupDir : string;
  Debug : bool; LogJSON : bool; Color : bool }.

(** [CredentialsFile] (JSON keys [homeserver], [user_id], [access_token],
    [device_id]); a key absent from the file leaves its field empty. *)
Record CredentialsFile := mkCreds {
  cf_Server : string; cf_User : string; cf_Token : string; cf_DeviceID : string }.

(** The errors of the configuration step. *)
Inductive cfg_error :=
| CfgRead (configPath : string)
| CfgParse (configPath : string)
| CfgMissing (msg : string).

(** [if cli.F == "" { cli.F = credsFromFile.F }]. *)
Definition set_if_empty (cur fromFile : string) : string :=
  if String.eqb cur EmptyString then fromFile else cur.

(** The merge half of [mergeAndValidateConfig]. *)
Definition merge_creds (cli : CLI) (credsFromFile : option CredentialsFile) : CLI :=
  match credsFromFile with
  | None => cli
  | Some f =>
      {| Server := set_if_empty (Server cli) (cf_Server f);
         User := set_if_empty (User cli) (cf_User f);
         Token := set_if_empty (Token cli) (cf_Token f);
         DeviceID := set_if_empty (DeviceID cli) (cf_DeviceID f);
         ConfigFile := ConfigFile cli; FetchDelay := FetchDelay cli;
         BackupDir := BackupDir cli; Debug := Debug cli;
         LogJSON := LogJSON cli; Color := Color cli |}
  end.

(** The [missing] slice of [mergeAndValidateConfig]. *)
Definition missing_credentials (cli : CLI) : list string :=
  (if String.eqb (Server cli) EmptyString then ["Server (--server or config file)"%string] else []) ++
  (if String.eqb (User cli) EmptyString then ["User (--user or config file)"%string] else []) ++
  (if String.eqb (Token cli) EmptyString then ["Token (--token or config file)"%string] else []).

(** [mergeAndValidateConfig(cli, credsFromFile)]: the [CLI] after the call
    (it is updated in place) and the error returned. *)
Definition mergeAndValidateConfig (cli : CLI) (credsFromFile : option CredentialsFile)
    : CLI * option cfg_error :=
  let cli := merge_creds cli credsFromFile in
  match missing_credentials cli with
  | [] => (cli, None)
  | missing =>
      (cli, Some (CfgMissing ("missing required credentials: " ++ String.concat ", " missing)))
  end.

(** What [os.ReadFile] of the configuration file gives: its bytes, a
    not-exist error, or another error. *)
Inductive file_read := FRData (b : bytes) | FRNotExist | FRError.

Section Load.
(** [os.ReadFile] on configuration paths, and [json.Unmarshal] into a
    [CredentialsFile] ([None]: a decoding error). *)
Variable readConfig : string -> file_read.
Variable unmarshal : bytes -> option CredentialsFile.

Definition loadConfigFromFile (configPath : string) : option CredentialsFile * option cfg_error :=
  if String.eqb configPath EmptyString then (None, None)
  else
    match readConfig configPath with
    | FRNotExist => (None, None)
    | FRError => (None, Some (CfgRead configPath))
    | FRData configData =>
        match unmarshal configData with
        | None => (None, Some (CfgParse configPath))
        | Some credsFile => (Some credsFile, None)
        end
    end.

Definition loadAndValidateConfig (cli : CLI) : CLI * option cfg_error :=
  let '(credsFromFile, err) := loadConfigFromFile (ConfigFile cli) in
  match err with
  | Some e => (cli, Some e)
  | None => mergeAndValidateConfig cli credsFromFile
  end.
End Load.

End Config.

(** ** Room names ([getRoomName]) *)
Module RoomName.

(** The outcome of [client.StateEvent] for one state event: the field the
    code reads ([Alias] or [Name]) on success, or an error (not found or
    another one; the two differ only in what is logged). *)
Inductive state_result := SOk (value : string) | SFail.

(** [getRoomName]: the canonical alias, else the room name, else the room
    id. Its [error] result is [nil] on every path, so only the name is
    modelled. *)
Definition getRoomName (aliasResp nameResp : state_result) (roomID : string) : string :=
  let fromName :=
    match nameResp with
    | SOk name => if negb (String.eqb name EmptyString) then name else roomID
    | SFail => roomID
    end in
  match aliasResp with
  | SOk alias => if negb (String.eqb alias EmptyString) then alias else fromName
  | SFail => fromName
  end.

End RoomName.

(** ** Further example states *)
Module Scenarios.
Import Sanitize Store Backup View.

(** The room [room0] whose day file for 1970-01-01 holds bytes that do not
    decode as an event array. *)
Definition world_corrupt : World :=
  mkWorld (<[["backup"; "room"; "1970-01-01"; "data.json"] := EFile (CRaw (B "{oops"))]>
            (w_fs world1)) [] 0.

(** A backup directory with the directory of room [!r] under its old name
    [Old] (a metadata file and one [.json] file of events) and under its
    new name [New]. *)
Definition old_room : path := ["backup"; "Old:!r"].
Definition new_room : path := ["backup"; "New:!r"].
Definition world_old : World :=
  mkWorld (<[old_room ++ ["2024-01-15.json"] := EFile (CEvents [ev1])]>
          (<[old_room ++ [metadataFilename] := EFile (CMeta "t")]>
          (<[new_room := EDir]> (<[old_room := EDir]> (<[["backup"] := EDir]> ∅))))) [] 0.

End Scenarios.

(* ================================================================== *)
(** * Proofs *)

Lemma ascii_eqb_spec (a b : ascii) : ascii_eqb a b = true <-> a = b.
Proof. unfold ascii_eqb; destruct (ascii_dec a b); split; congruence. Qed.

Lemma ascii_eqb_refl (a : ascii) : ascii_eqb a a = true.
Proof. by apply ascii_eqb_spec. Qed.

Lemma bytes_eqb_spec (s t : bytes) : bytes_eqb s t = true <-> s = t.
Proof.
  revert t; induction s as [|a s IH]; intros [|b t]; simpl;
    try (split; congruence).
  rewrite andb_true_iff, ascii_eqb_spec, IH. split; [intros [-> ->]; reflexivity|].
  intros H; inversion H; auto.
Qed.

Module SanitizeFacts.
Import Sanitize.

(** No two adjacent underscores. *)
Fixpoint no_dbl (s : bytes) : bool :=
  match s with
  | c :: ((d :: _) as s') =>
      negb (ascii_eqb c underscore && ascii_eqb d underscore) && no_dbl s'
  | _ => true
  end.

Lemma no_dbl_cons2 c d r :
  no_dbl (c :: d :: r) =
  negb (ascii_eqb c underscore && ascii_eqb d underscore) && no_dbl (d :: r).
Proof. reflexivity. Qed.

Lemma no_dbl_cons c s : no_dbl (c :: s) = true -> no_dbl s = true.
Proof. destruct s; simpl; [done|]. rewrite andb_true_iff; tauto. Qed.

Lemma no_dbl_app_r p s : no_dbl (p ++ s) = true -> no_dbl s = true.
Proof. induction p; simpl; auto. intros H; apply IHp, (no_dbl_cons a), H. Qed.

Lemma no_dbl_app_l p s : no_dbl (p ++ s) = true -> no_dbl p = true.
Proof.
  induction p as [|c p IH]; [done|]. destruct p as [|d p]; [done|].
  simpl. rewrite !andb_true_iff. intros [H1 H2]. split; [done|]. apply IH, H2.
Qed.

Lemma underscore_not_keepable : keepable underscore = false.
Proof. reflexivity. Qed.

Lemma underscore_cut : cut underscore = true.
Proof. reflexivity. Qed.

Lemma underscore_safe : unsafe underscore = false.
Proof. reflexivity. Qed.

(** replacement *)
Lemma replace_unsafe_filter s :
  List.filter keepable (replace_unsafe s) = List.filter keepable s.
Proof.
  induction s as [|c s IH]; [done|]. simpl.
  destruct (unsafe c) eqn:U.
  - rewrite underscore_not_keepable.
    replace (keepable c) with false by (unfold keepable; by rewrite U).
    exact IH.
  - destruct (keepable c); [f_equal|]; exact IH.
Qed.

Lemma replace_unsafe_safe s : Forall (fun c => unsafe c = false) (replace_unsafe s).
Proof.
  induction s as [|c s IH]; simpl; constructor; auto.
  destruct (unsafe c) eqn:U; [reflexivity|exact U].
Qed.

Lemma replace_unsafe_id s :
  Forall (fun c => unsafe c = false) s -> replace_unsafe s = s.
Proof.
  induction 1 as [|c s Hc _ IH]; [done|]. simpl. by rewrite Hc, IH.
Qed.

(** collapsing *)
Lemma collapse_filter p s : List.filter keepable (collapse_aux p s) = List.filter keepable s.
Proof.
  revert p; induction s as [|c s IH]; intros p; [done|]. simpl.
  destruct (ascii_eqb c underscore) eqn:E.
  - apply ascii_eqb_spec in E; subst c. destruct p; simpl; apply IH.
  - simpl. destruct (keepable c); simpl; by rewrite IH.
Qed.

Lemma collapse_incl p s c : In c (collapse_aux p s) -> In c s.
Proof.
  revert p; induction s as [|d s IH]; intros p; simpl; [done|].
  destruct (ascii_eqb d underscore), p; simpl; firstorder.
Qed.

Lemma collapse_no_dbl p s :
  no_dbl (collapse_aux p s) = true /\
  (p = true -> hd_error (collapse_aux p s) <> Some underscore).
Proof.
  revert p; induction s as [|c s IH]; intros p; simpl.
  - split; [done|]. discriminate.
  - destruct (ascii_eqb c underscore) eqn:E.
    + destruct p.
      * apply IH.
      * destruct (IH true) as [H1 H2]. split; [|discriminate].
        destruct (collapse_aux true s) as [|d r] eqn:R; [done|].
        rewrite no_dbl_cons2, H1, E. simpl.
        destruct (ascii_eqb d underscore) eqn:D; [|done].
        apply ascii_eqb_spec in D; subst. exfalso; by apply H2.
    + destruct (IH false) as [H1 _]. split.
      * destruct (collapse_aux false s); [done|]. by rewrite no_dbl_cons2, H1, E.
      * simpl. intros _ Hc. inversion Hc; subst. by rewrite ascii_eqb_refl in E.
Qed.

Lemma collapse_id p s :
  no_dbl s = true -> (p = true -> hd_error s <> Some underscore) ->
  collapse_aux p s = s.
Proof.
  revert p; induction s as [|c s IH]; intros p Hd Hp; [done|]. simpl.
  destruct (ascii_eqb c underscore) eqn:E.
  - apply ascii_eqb_spec in E; subst c. destruct p.
    { exfalso; by apply Hp. }
    f_equal. apply IH; [eapply no_dbl_cons; eauto|].
    intros _. destruct s as [|d s]; [discriminate|].
    rewrite no_dbl_cons2, ascii_eqb_refl in Hd. simpl.
    intros Hs; inversion Hs; subst. by rewrite ascii_eqb_refl in Hd.
  - f_equal. apply IH; [eapply no_dbl_cons; eauto|discriminate].
Qed.

(** trimming *)
Lemma trim_left_suffix s : exists p, s = p ++ trim_left s.
Proof.
  induction s as [|c s [p Hp]]; simpl; [by exists []|].
  destruct (cut c); [exists (c :: p); simpl; by f_equal | by exists []].
Qed.

Lemma trim_left_head s c t : trim_left s = c :: t -> cut c = false.
Proof.
  induction s as [|d s IH]; simpl; [discriminate|].
  destruct (cut d) eqn:D; [apply IH|]. intros H; inversion H; subst; exact D.
Qed.

Lemma trim_left_id s : (forall c t, s = c :: t -> cut c = false) -> trim_left s = s.
Proof. destruct s as [|c t]; [done|]. intros H. simpl. by rewrite (H c t eq_refl). Qed.

Lemma trim_left_filter s : List.filter keepable (trim_left s) = List.filter keepable s.
Proof.
  induction s as [|c s IH]; [done|]. simpl. destruct (cut c) eqn:C; [|done].
  rewrite IH. unfold keepable at 2. rewrite C. simpl. by rewrite andb_false_r.
Qed.

Lemma trim_left_app_last l c :
  cut c = false -> exists q, trim_left (l ++ [c]) = q ++ [c].
Proof.
  intros C. induction l as [|d l [q Hq]]; simpl.
  - rewrite C. by exists [].
  - destruct (cut d); [by exists q|]. by exists (d :: l).
Qed.

Lemma filter_rev (f : ascii -> bool) l : List.filter f (rev l) = rev (List.filter f l).
Proof.
  induction l as [|c l IH]; [done|]. simpl. rewrite List.filter_app, IH. simpl.
  destruct (f c); simpl; [done|by rewrite app_nil_r].
Qed.

Lemma trim_right_filter s : List.filter keepable (trim_right s) = List.filter keepable s.
Proof. unfold trim_right. by rewrite filter_rev, trim_left_filter, filter_rev, rev_involutive. Qed.

Lemma trim_right_prefix s : exists q, s = trim_right s ++ q.
Proof.
  unfold trim_right. destruct (trim_left_suffix (rev s)) as [p Hp].
  exists (rev p). rewrite <- rev_app_distr, <- Hp. by rewrite rev_involutive.
Qed.

(** The shape of every result of [trim]. *)
Definition clean (s : bytes) : Prop :=
  Forall (fun c => unsafe c = false) s /\ no_dbl s = true /\
  (forall c t, s = c :: t -> cut c = false) /\
  (forall c t, rev s = c :: t -> cut c = false).

Lemma trim_id s : clean s -> trim s = s.
Proof.
  intros (_ & _ & Hh & Hl). unfold trim. rewrite (trim_left_id s Hh).
  unfold trim_right. rewrite (trim_left_id (rev s) Hl). apply rev_involutive.
Qed.

Lemma clean_trim_collapse_replace x : clean (trim (collapse (replace_unsafe x))).
Proof.
  set (u := collapse (replace_unsafe x)).
  assert (Hu : Forall (fun c => unsafe c = false) u /\ no_dbl u = true).
  { split.
    - apply List.Forall_forall. intros c Hc. apply collapse_incl in Hc.
      pose proof (replace_unsafe_safe x) as H. rewrite List.Forall_forall in H. auto.
    - apply (collapse_no_dbl false). }
  destruct Hu as [Hs Hd].
  destruct (trim_left_suffix u) as [p Hp].
  set (v := trim_left u) in *.
  destruct (trim_right_prefix v) as [q Hq].
  unfold trim. fold v. set (w := trim_right v) in *.
  assert (Huw : u = p ++ w ++ q) by (rewrite Hp, Hq at 1; reflexivity).
  split; [|split; [|split]].
  - rewrite Huw in Hs. by apply Forall_app in Hs as [_ [Hs _]%Forall_app].
  - rewrite Huw in Hd. by apply no_dbl_app_r, no_dbl_app_l in Hd.
  - intros c t Hw. destruct v as [|d r] eqn:V.
    + unfold w, trim_right in Hw. simpl in Hw. discriminate.
    + pose proof (trim_left_head u d r V) as Dd.
      unfold w, trim_right in Hw. simpl in Hw.
      destruct (trim_left_app_last (rev r) d Dd) as [q' Hq'].
      rewrite Hq', rev_app_distr in Hw. simpl in Hw. inversion Hw; subst; exact Dd.
  - intros c t Hw. unfold w, trim_right in Hw. rewrite rev_involutive in Hw.
    exact (trim_left_head _ _ _ Hw).
Qed.

Lemma clean_sanitize x : clean x -> x <> [] -> sanitizeFilename x = x.
Proof.
  intros Hc Hne. pose proof Hc as (Hs & Hd & Hh & _).
  unfold sanitizeFilename. rewrite (replace_unsafe_id x Hs).
  unfold collapse. rewrite (collapse_id false x Hd ltac:(discriminate)).
  rewrite (trim_id x Hc). by destruct x.
Qed.

Lemma sanitize_shape x :
  sanitizeFilename x = [underscore] \/
  (clean (sanitizeFilename x) /\ sanitizeFilename x <> []).
Proof.
  unfold sanitizeFilename. pose proof (clean_trim_collapse_replace x) as H.
  destruct (trim (collapse (replace_unsafe x))) as [|c t]; [by left|].
  right. split; [exact H|discriminate].
Qed.

Lemma sanitize_filter x :
  List.filter keepable (sanitizeFilename x) = List.filter keepable x.
Proof.
  unfold sanitizeFilename.
  assert (E : List.filter keepable (trim (collapse (replace_unsafe x))) =
              List.filter keepable x).
  { unfold trim, collapse.
    by rewrite trim_right_filter, trim_left_filter, collapse_filter, replace_unsafe_filter. }
  destruct (trim (collapse (replace_unsafe x))); [|exact E]. exact E.
Qed.

Lemma sanitize_safe x : Forall (fun c => unsafe c = false) (sanitizeFilename x).
Proof.
  destruct (sanitize_shape x) as [-> | [(H & _) _]]; [|exact H].
  repeat constructor.
Qed.

End SanitizeFacts.

(** ** C8 *)
Import Sanitize SanitizeFacts.

(** Claim C8: [sanitizeFilename] is total and never returns the empty
    string; it keeps, in order and with their multiplicity, all bytes that
    are neither in the unsafe class nor among the trimmed [_], space and dot
    (so any non-ASCII text survives unchanged); and it is idempotent. *)
Theorem sanitizeFilename_total_preserving_idempotent (x : bytes) :
  sanitizeFilename x <> [] /\
  List.filter keepable (sanitizeFilename x) = List.filter keepable x /\
  sanitizeFilename (sanitizeFilename x) = sanitizeFilename x.
Proof.
  split; [|split].
  - destruct (sanitize_shape x) as [-> | [_ H]]; [discriminate|exact H].
  - apply sanitize_filter.
  - destruct (sanitize_shape x) as [-> | [Hc Hne]]; [reflexivity|].
    exact (clean_sanitize _ Hc Hne).
Qed.

(** The test inputs of the spec: the empty string, separators only, text
    outside ASCII, mixed text. *)
Example sanitize_empty : sanitizeFilename [] = B "_".
Proof. reflexivity. Qed.

Example sanitize_separators : sanitizeFilename (B "://\\|?*") = B "_".
Proof. reflexivity. Qed.

Example sanitize_utf8 :
  let s := [ascii_of_nat 195; ascii_of_nat 164; "x"%char; ascii_of_nat 226;
            ascii_of_nat 130; ascii_of_nat 172] in
  sanitizeFilename s = s.
Proof. reflexivity. Qed.

Example sanitize_mixed : sanitizeFilename (B "#room:example.org") = B "room_example.org".
Proof. reflexivity. Qed.

(** ** Directory keys *)
Module DirKeyFacts.
Import DirKey.

Lemma last_index_app_some p s sub i :
  last_index s sub = Some i -> last_index (p ++ s) sub = Some (length p + i)%nat.
Proof.
  intros H. induction p as [|c p IH]; [exact H|]. simpl. by rewrite IH.
Qed.

Lemma last_index_sep r :
  room_id_ok r -> last_index (B ":" ++ r) (B ":!") = Some 0%nat.
Proof.
  intros [Hh Hn]. destruct r as [|c r]; [discriminate|]. simpl in Hh.
  inversion Hh; subst.
  change (last_index (B ":" ++ "!"%char :: r) (B ":!")) with
    (match last_index ("!"%char :: r) (B ":!") with
     | Some i => Some (S i)
     | None => if has_prefix (":"%char :: "!"%char :: r) (B ":!") then Some 0%nat else None
     end).
  rewrite Hn. simpl. by destruct r.
Qed.

Lemma extract_roomDirName label r :
  room_id_ok r -> extractRoomID (roomDirName label r) = Some r.
Proof.
  intros Hr. unfold extractRoomID, roomDirName.
  rewrite (last_index_app_some (sanitizeFilename label) _ _ _ (last_index_sep r Hr)).
  rewrite Nat.add_0_r. change (B ":" ++ r) with ([":"%char] ++ r).
  rewrite app_assoc, skipn_app. replace (S (length (sanitizeFilename label)))
    with (length (sanitizeFilename label ++ [":"%char])) by (rewrite length_app; simpl; lia).
  by rewrite skipn_all, Nat.sub_diag.
Qed.

End DirKeyFacts.
Import DirKey DirKeyFacts.

(** Claim C10: for a room id that starts with ['!'] and has no [":!"],
    the room id extracted from [sanitizeFilename(label) + ":" + roomID]
    (the part after the last [":!"], keeping the ['!']) is the room id
    itself; hence, among directories named by [backupRoom], the candidate
    test of [mergeOldRoomData] accepts exactly those built for the same
    room id under another name. *)
Theorem roomDirName_roundtrip (label roomID : bytes) :
  room_id_ok roomID ->
  extractRoomID (roomDirName label roomID) = Some roomID /\
  (forall label' roomID', room_id_ok roomID' ->
     is_candidate roomID (roomDirName label roomID) (roomDirName label' roomID') = true <->
     roomID' = roomID /\ roomDirName label' roomID' <> roomDirName label roomID).
Proof.
  intros Hr. split; [exact (extract_roomDirName label roomID Hr)|].
  intros label' roomID' Hr'. unfold is_candidate.
  rewrite (extract_roomDirName label' roomID' Hr').
  rewrite andb_true_iff, bytes_eqb_spec, negb_true_iff.
  split; intros [H1 H2]; split; auto.
  - intros E. apply bytes_eqb_spec in E. congruence.
  - destruct (bytes_eqb _ _) eqn:E; [|done]. apply bytes_eqb_spec in E. congruence.
Qed.

Lemma roomDirName_roundtrip_witness :
  room_id_ok (B "!abc:matrix.org") /\
  extractRoomID (roomDirName (B "#chat:x") (B "!abc:matrix.org")) = Some (B "!abc:matrix.org").
Proof.
  assert (H : room_id_ok (B "!abc:matrix.org")) by (split; reflexivity).
  split; [exact H|]. exact (proj1 (roomDirName_roundtrip (B "#chat:x") _ H)).
Defined.

(** ** Day buckets *)
Module DateFacts.
Import Date.

(** The inverse of [civil_from_days] (days from a civil date). *)
Definition doe_of_civil (yoe m d : Z) : Z :=
  let doy := (153 * (if 2 <? m then m - 3 else m + 9) + 2) / 5 + d - 1 in
  yoe * 365 + yoe / 4 - yoe / 100 + doy.

Definition days_from_civil (ymd : Z * Z * Z) : Z :=
  let '(y, m, d) := ymd in
  let y := if m <=? 2 then y - 1 else y in
  let era := y / 400 in
  let yoe := y - era * 400 in
  era * 146097 + doe_of_civil yoe m d - 719468.

Definition doe_ok (doe : Z) : bool :=
  let '(yoe, m, d) := civil_of_doe doe in
  (0 <=? yoe) && (yoe <? 400) && (1 <=? m) && (m <=? 12) && (1 <=? d) && (d <=? 31)
  && (doe_of_civil yoe m d =? doe).

Fixpoint all_range (fuel : nat) (k : Z) (f : Z -> bool) : bool :=
  match fuel with
  | O => true
  | S fuel' => f k && all_range fuel' (k + 1) f
  end.

Lemma all_range_spec fuel k f :
  all_range fuel k f = true -> forall j, k <= j < k + Z.of_nat fuel -> f j = true.
Proof.
  revert k; induction fuel as [|n IH]; intros k H j Hj; simpl in *; [lia|].
  apply andb_true_iff in H as [H1 H2].
  destruct (Z.eq_dec j k) as [->|Hne]; [exact H1|]. apply (IH (k + 1)); [exact H2|lia].
Qed.

Lemma all_doe_ok : all_range (Z.to_nat 146097) 0 doe_ok = true.
Proof. vm_compute. reflexivity. Qed.

Lemma doe_ok_spec doe : 0 <= doe < 146097 ->
  let '(yoe, m, d) := civil_of_doe doe in
  0 <= yoe < 400 /\ 1 <= m <= 12 /\ 1 <= d <= 31 /\ doe_of_civil yoe m d = doe.
Proof.
  intros H. pose proof (all_range_spec _ _ _ all_doe_ok doe ltac:(lia)) as Hc.
  unfold doe_ok in Hc. destruct (civil_of_doe doe) as [[yoe m] d].
  rewrite !andb_true_iff, !Z.leb_le, !Z.ltb_lt, Z.eqb_eq in Hc. lia.
Qed.

Lemma civil_from_days_spec z :
  let '(y, m, d) := civil_from_days z in
  days_from_civil (y, m, d) = z /\ 1 <= m <= 12 /\ 1 <= d <= 31 /\
  Z.abs y <= Z.abs z + 720000.
Proof.
  unfold civil_from_days.
  set (w := z + 719468). set (era := w / 146097). set (doe := w - era * 146097).
  assert (Hdoe : 0 <= doe < 146097) by (unfold doe, era; pose proof (Z.mod_pos_bound w 146097); rewrite Z.mod_eq in *; lia).
  assert (Hera : era * 146097 <= w < era * 146097 + 146097) by (unfold doe in Hdoe; lia).
  pose proof (doe_ok_spec doe Hdoe) as Hs.
  destruct (civil_of_doe doe) as [[yoe m] d]. destruct Hs as (Hy & Hm & Hd & Hback).
  unfold days_from_civil.
  assert (E : (if m <=? 2 then (if m <=? 2 then yoe + era * 400 + 1 else yoe + era * 400) - 1
               else (if m <=? 2 then yoe + era * 400 + 1 else yoe + era * 400))
              = yoe + era * 400) by (destruct (m <=? 2); lia).
  assert (Ediv : (yoe + era * 400) / 400 = era).
  { rewrite Z.div_add by lia. rewrite Z.div_small by lia. lia. }
  split; [|split; [lia|split; [lia|]]].
  - rewrite E, Ediv. replace (yoe + era * 400 - era * 400) with yoe by lia.
    rewrite Hback. unfold doe, w. lia.
  - destruct (m <=? 2); lia.
Qed.

Lemma civil_from_days_inj z1 z2 : civil_from_days z1 = civil_from_days z2 -> z1 = z2.
Proof.
  intros H. pose proof (civil_from_days_spec z1) as H1. pose proof (civil_from_days_spec z2) as H2.
  destruct (civil_from_days z1) as [[y1 m1] d1], (civil_from_days z2) as [[y2 m2] d2].
  inversion H; subst. lia.
Qed.

Lemma unix_milli_seconds_floor ms : unix_milli_seconds ms = ms / 1000.
Proof.
  unfold unix_milli_seconds.
  pose proof (Z.quot_rem' ms 1000) as Hq.
  pose proof (Z.rem_bound_abs ms 1000 ltac:(lia)) as Hr.
  set (q := Z.quot ms 1000) in *. set (r := Z.rem ms 1000) in *.
  assert (Hz : Z.quot (r * 1000000) 1000000000 = 0) by (apply Z.quot_small_iff; lia).
  rewrite Hz, Z.add_0_r, Z.mul_0_l, Z.sub_0_r.
  destruct (Z.ltb_spec (r * 1000000) 0) as [Hn|Hn]; simpl.
  -
    destruct (Z.ltb_spec (r * 1000000) 0); [|lia].
    apply Z.div_unique with (r := r + 1000); lia.
  - destruct (Z.leb_spec 1000000000 (r * 1000000)); [lia|]. simpl.
    apply Z.div_unique with (r := r); lia.
Qed.

Lemma unix_day_of_millis ms : unix_days (unix_milli_seconds ms) = ms / 86400000.
Proof.
  unfold unix_days. rewrite unix_milli_seconds_floor, Z.div_div by lia. reflexivity.
Qed.

(** Reading back the decimal text written by [appendInt]. *)
Definition step (v : Z) (c : ascii) : Z := v * 10 + (Z.of_nat (nat_of_ascii c) - 48).

Definition dec_value (l : bytes) : Z := fold_left step l 0.

Definition is_digit (c : ascii) : bool :=
  (48 <=? nat_of_ascii c)%nat && (nat_of_ascii c <=? 57)%nat.

Definition parse_int (s : bytes) : Z :=
  match s with
  | c :: r => if ascii_eqb c "-"%char then - dec_value r else dec_value s
  | [] => 0
  end.

Lemma digit_facts k : 0 <= k < 10 ->
  Z.of_nat (nat_of_ascii (digit k)) - 48 = k /\ is_digit (digit k) = true.
Proof.
  intros Hk. assert (H : all_range 10 0 (fun k =>
    (Z.of_nat (nat_of_ascii (digit k)) - 48 =? k) && is_digit (digit k)) = true)
    by (vm_compute; reflexivity).
  pose proof (all_range_spec _ _ _ H k ltac:(simpl; lia)) as Hc.
  apply andb_true_iff in Hc as [Hc1 Hc2]. split; [lia|exact Hc2].
Qed.

Lemma digits_aux_value fuel u acc :
  0 <= u < 10 ^ Z.of_nat fuel ->
  fold_left step (digits_aux fuel u acc) 0 = fold_left step acc u.
Proof.
  revert u acc; induction fuel as [|n IH]; intros u acc Hu; simpl.
  - simpl in Hu. replace u with 0 by lia. reflexivity.
  - destruct (Z.leb_spec 10 u) as [H10|H10].
    + rewrite IH. 2:{ split; [apply Z.div_pos; lia|].
        apply Z.div_lt_upper_bound; [lia|]. rewrite Nat2Z.inj_succ, Z.pow_succ_r in Hu; lia. }
      simpl. f_equal. unfold step.
      rewrite (proj1 (digit_facts (u mod 10) ltac:(apply Z.mod_pos_bound; lia))).
      pose proof (Z.div_mod u 10). lia.
    + simpl. f_equal. unfold step. rewrite (proj1 (digit_facts u ltac:(lia))). lia.
Qed.

Lemma digits_aux_digits fuel u acc :
  0 <= u -> Forall (fun c => is_digit c = true) acc ->
  Forall (fun c => is_digit c = true) (digits_aux fuel u acc).
Proof.
  revert u acc; induction fuel as [|n IH]; intros u acc Hu Hacc; simpl; [exact Hacc|].
  destruct (Z.leb_spec 10 u).
  - apply IH; [apply Z.div_pos; lia|]. constructor; [|exact Hacc].
    apply digit_facts, Z.mod_pos_bound; lia.
  - constructor; [|exact Hacc]. apply digit_facts; lia.
Qed.

Lemma digits_aux_nonempty fuel u acc : (0 < fuel)%nat -> digits_aux fuel u acc <> [].
Proof.
  revert u acc; induction fuel as [|n IH]; intros u acc Hf; [lia|]. simpl.
  destruct (10 <=? u); [|discriminate].
  destruct n; [simpl; discriminate|]. apply IH; lia.
Qed.

Lemma zeros_value k l : fold_left step (repeat "0"%char k ++ l) 0 = fold_left step l 0.
Proof. induction k; simpl; [reflexivity|]. exact IHk. Qed.

Lemma parse_appendInt x w : Z.abs x < 10 ^ 20 -> parse_int (appendInt x w) = x.
Proof.
  intros Hx. unfold appendInt. cbv zeta.
  pose proof (digits_aux_digits 20 (Z.abs x) [] ltac:(lia) ltac:(constructor)) as Hd.
  pose proof (digits_aux_nonempty 20 (Z.abs x) [] ltac:(lia)) as Hne.
  assert (Hv : forall k, dec_value (repeat "0"%char k ++ digits (Z.abs x)) = Z.abs x).
  { intros k. unfold dec_value, digits. rewrite zeros_value, digits_aux_value; [reflexivity|].
    simpl Z.of_nat. lia. }
  unfold digits in *.
  generalize dependent (digits_aux 20 (Z.abs x) []). intros D Hd Hne Hv.
  destruct (Z.ltb_spec x 0) as [Hn|Hn].
  - simpl. rewrite Hv. lia.
  - simpl app. destruct (w - length D)%nat as [|k].
    + specialize (Hv 0%nat). simpl in Hv |- *. destruct D as [|c r]; [done|].
      inversion Hd as [|? ? Hc]; subst.
      destruct (ascii_eqb c "-"%char) eqn:E.
      { apply ascii_eqb_spec in E; subst. discriminate. }
      unfold parse_int. rewrite E, Hv. lia.
    + specialize (Hv (S k)). simpl. simpl in Hv. rewrite Hv. lia.
Qed.

Lemma appendInt_two m : 0 <= m < 100 -> appendInt m 2 = [digit (m / 10); digit (m mod 10)].
Proof.
  intros Hm. assert (H : all_range 100 0 (fun m =>
    bytes_eqb (appendInt m 2) [digit (m / 10); digit (m mod 10)]) = true)
    by (vm_compute; reflexivity).
  apply bytes_eqb_spec. apply (all_range_spec _ _ _ H). simpl; lia.
Qed.

Lemma digit_inj a b : 0 <= a < 10 -> 0 <= b < 10 -> digit a = digit b -> a = b.
Proof.
  intros Ha Hb E. pose proof (proj1 (digit_facts a Ha)). pose proof (proj1 (digit_facts b Hb)).
  rewrite E in *. lia.
Qed.

Lemma two_digits_inj a b : 0 <= a < 100 -> 0 <= b < 100 ->
  digit (a / 10) = digit (b / 10) -> digit (a mod 10) = digit (b mod 10) -> a = b.
Proof.
  intros Ha Hb E1 E2.
  apply digit_inj in E1; [|split; [apply Z.div_pos|apply Z.div_lt_upper_bound]; lia..].
  apply digit_inj in E2; [|apply Z.mod_pos_bound; lia..].
  rewrite (Z.div_mod a 10), (Z.div_mod b 10) by lia. lia.
Qed.

Lemma format_date_inj y1 m1 d1 y2 m2 d2 :
  Z.abs y1 < 10 ^ 20 -> Z.abs y2 < 10 ^ 20 ->
  1 <= m1 <= 12 -> 1 <= d1 <= 31 -> 1 <= m2 <= 12 -> 1 <= d2 <= 31 ->
  format_date (y1, m1, d1) = format_date (y2, m2, d2) -> (y1, m1, d1) = (y2, m2, d2).
Proof.
  intros Hy1 Hy2 Hm1 Hd1 Hm2 Hd2 E. unfold format_date in E.
  rewrite !appendInt_two in E by lia. simpl in E.
  apply app_inj_2 in E as [Ey Erest]; [|reflexivity].
  inversion Erest as [[Em1 Em2 Ed1 Ed2]].
  apply (f_equal parse_int) in Ey. rewrite !parse_appendInt in Ey by exact Hy1 || exact Hy2.
  f_equal; [f_equal|]; [exact Ey| |]; apply two_digits_inj; lia || assumption.
Qed.

End DateFacts.
Import Date.

(** Claim C9: the day bucket of an event is the UTC calendar date of its
    millisecond timestamp, written YYYY-MM-DD. For any two int64
    timestamps the bucket names agree exactly when both fall in the same
    UTC day (floor division by 86400000 ms); 2024-01-15T23:59:59.999Z
    lands in 2024-01-15 and 2024-01-16T00:00:00.000Z in 2024-01-16. *)
Theorem dateStr_day_buckets (t1 t2 : Z) :
  int64_range t1 -> int64_range t2 ->
  (dateStr t1 = dateStr t2 <-> t1 / 86400000 = t2 / 86400000) /\
  dateStr 1705363199999 = "2024-01-15"%string /\
  dateStr 1705363200000 = "2024-01-16"%string.
Proof.
  intros H1 H2. split; [|split; reflexivity].
  unfold dateStr. rewrite !DateFacts.unix_day_of_millis. split; [|intros ->; reflexivity].
  intros E. apply (f_equal list_ascii_of_string) in E.
  rewrite !list_ascii_of_string_of_list_ascii in E.
  apply DateFacts.civil_from_days_inj.
  pose proof (DateFacts.civil_from_days_spec (t1 / 86400000)) as S1.
  pose proof (DateFacts.civil_from_days_spec (t2 / 86400000)) as S2.
  unfold int64_range in *.
  assert (B1 : Z.abs (t1 / 86400000) <= 2 ^ 63) by
    (apply Z.abs_le; split; [apply Z.div_le_lower_bound|apply Z.div_le_upper_bound]; lia).
  assert (B2 : Z.abs (t2 / 86400000) <= 2 ^ 63) by
    (apply Z.abs_le; split; [apply Z.div_le_lower_bound|apply Z.div_le_upper_bound]; lia).
  destruct (civil_from_days (t1 / 86400000)) as [[y1 m1] d1],
           (civil_from_days (t2 / 86400000)) as [[y2 m2] d2].
  apply DateFacts.format_date_inj; lia || assumption.
Qed.

Lemma dateStr_day_buckets_witness :
  int64_range 1705363199999 /\ int64_range 1705363200000 /\
  (dateStr 1705363199999 <> dateStr 1705363200000).
Proof.
  assert (Ha : int64_range 1705363199999) by (unfold int64_range; lia).
  assert (Hb : int64_range 1705363200000) by (unfold int64_range; lia).
  split; [exact Ha|split; [exact Hb|]].
  intros E. apply (proj1 (proj1 (dateStr_day_buckets _ _ Ha Hb))) in E.
  vm_compute in E. discriminate.
Defined.

(** ** Merging by id, stable sorting and grouping by day *)
Module EventFacts.
Import Date Store Backup View.

Lemma fold_ins_lookup l m k :
  fold_left ins l m !! k =
  match latest_by_id l k with Some e => Some e | None => m !! k end.
Proof.
  unfold latest_by_id. induction l as [|x l IH] using rev_ind; [reflexivity|].
  rewrite fold_left_app, List.filter_app. simpl. unfold ins.
  destruct (String.eqb_spec (ev_id x) k) as [<-|Hne].
  - rewrite lookup_insert_eq, last_snoc. reflexivity.
  - rewrite lookup_insert_ne by congruence. rewrite app_nil_r. exact IH.
Qed.

Lemma latest_by_id_id l k e : latest_by_id l k = Some e -> ev_id e = k /\ In e l.
Proof.
  unfold latest_by_id. intros H. apply last_Some_elem_of in H.
  apply list_elem_of_In, List.filter_In in H as [Hin Hk].
  apply String.eqb_eq in Hk. auto.
Qed.

Lemma fold_ins_id_keyed l m : id_keyed m -> id_keyed (fold_left ins l m).
Proof.
  intros Hm k e. rewrite fold_ins_lookup.
  destruct (latest_by_id l k) as [e'|] eqn:E.
  - intros [= <-]. apply (latest_by_id_id _ _ _ E).
  - apply Hm.
Qed.

Lemma id_keyed_empty : id_keyed ∅.
Proof. intros k e H. by rewrite lookup_empty in H. Qed.


Lemma latest_by_id_none l k : latest_by_id l k = None -> ~ In k (map ev_id l).
Proof.
  unfold latest_by_id. intros H Hin. apply in_map_iff in Hin as (e & <- & He).
  apply last_None in H.
  assert (Hf : In e (List.filter (fun e' => String.eqb (ev_id e') (ev_id e)) l))
    by (apply List.filter_In; rewrite String.eqb_refl; auto).
  rewrite H in Hf. exact Hf.
Qed.

Lemma represents_fold l m : represents l m -> fold_left ins l ∅ = m.
Proof.
  intros [Hnd Hm]. apply map_eq. intros k. rewrite fold_ins_lookup, lookup_empty.
  destruct (latest_by_id l k) as [e|] eqn:E.
  - apply latest_by_id_id in E as [<- Hin]. symmetry. by apply Hm.
  - destruct (m !! k) as [e|] eqn:Hk; [|reflexivity].
    apply Hm in Hk as [Hin <-]. exfalso. apply (latest_by_id_none _ _ E), in_map, Hin.
Qed.

Lemma represents_map_values m :
  id_keyed m -> represents (map snd (map_to_list m)) m.
Proof.
  intros Hid. split.
  - rewrite map_map.
    assert (Heq : map (fun x => ev_id x.2) (map_to_list m) = (map_to_list m).*1).
    { apply map_ext_in. intros [k e] Hin. simpl.
      apply list_elem_of_In, elem_of_map_to_list in Hin. by apply Hid. }
    rewrite Heq. apply NoDup_fst_map_to_list.
  - intros k e. split.
    + intros Hk. split; [|by apply Hid].
      apply in_map_iff. exists (k, e). split; [reflexivity|].
      by apply list_elem_of_In, elem_of_map_to_list.
    + intros [Hin <-]. apply in_map_iff in Hin as ([k e'] & He & Hin). simpl in He; subst e'.
      apply list_elem_of_In, elem_of_map_to_list in Hin as Hk.
      by rewrite (Hid _ _ Hk).
Qed.

Lemma represents_perm l l' m : Permutation l l' -> represents l m -> represents l' m.
Proof.
  intros Hp [Hnd Hm]. split.
  - apply NoDup_ListNoDup. apply NoDup_ListNoDup in Hnd.
    eapply Permutation_NoDup; [apply Permutation_map, Hp|exact Hnd].
  - intros k e. rewrite Hm. split; intros [Hi ->]; split; auto.
    + eapply Permutation_in; [exact Hp|exact Hi].
    + eapply Permutation_in; [apply Permutation_sym; exact Hp|exact Hi].
Qed.

Lemma represents_unique l l' m : represents l m -> represents l' m -> Permutation l l'.
Proof.
  intros [Hnd Hm] [Hnd' Hm']. apply NoDup_ListNoDup in Hnd, Hnd'. apply NoDup_Permutation.
  - apply NoDup_ListNoDup. eapply NoDup_map_inv; exact Hnd.
  - apply NoDup_ListNoDup. eapply NoDup_map_inv; exact Hnd'.
  - intros e. rewrite !list_elem_of_In. split; intros Hin.
    + apply (Hm' (ev_id e)), (Hm (ev_id e)). auto.
    + apply (Hm (ev_id e)), (Hm' (ev_id e)). auto.
Qed.

(** [sliceStable] sorts and permutes. *)
Lemma insert_stable_perm e l : Permutation (insert_stable e l) (e :: l).
Proof.
  induction l as [|x l IH]; simpl; [reflexivity|].
  destruct (ev_ts e <=? ev_ts x); [reflexivity|].
  rewrite IH. apply perm_swap.
Qed.

Lemma sliceStable_perm l : Permutation (sliceStable l) l.
Proof.
  induction l as [|x l IH]; simpl; [reflexivity|].
  rewrite insert_stable_perm. by constructor.
Qed.

Lemma insert_stable_sorted e l : Sorted ts_le l -> Sorted ts_le (insert_stable e l).
Proof.
  unfold ts_le. induction 1 as [|x l Hs IH Hhd]; simpl.
  - repeat constructor.
  - destruct (Z.leb_spec (ev_ts e) (ev_ts x)).
    + constructor; [constructor; assumption|constructor; assumption].
    + constructor; [exact IH|].
      destruct l as [|y l]; simpl; [constructor; lia|].
      inversion Hhd; subst. destruct (ev_ts e <=? ev_ts y); constructor; lia.
Qed.

Lemma sliceStable_sorted l : Sorted ts_le (sliceStable l).
Proof. induction l; simpl; [constructor|by apply insert_stable_sorted]. Qed.

(** Grouping by day keeps, for each day, that day's events in order. *)
Lemma group_by_date_lookup evs d :
  group_by_date evs !! d =
  match List.filter (same_day d) evs with [] => None | l => Some l end.
Proof.
  unfold group_by_date. induction evs as [|x evs IH] using rev_ind; [reflexivity|].
  rewrite fold_left_app, List.filter_app. simpl. unfold same_day at 2.
  destruct (String.eqb_spec (dateOf x) d) as [<-|Hne].
  - rewrite lookup_insert_eq.
    change (fold_left _ evs ∅ !! dateOf x) with (group_by_date evs !! dateOf x).
    unfold group_by_date. rewrite IH. by destruct (List.filter (same_day (dateOf x)) evs).
  - rewrite lookup_insert_ne by congruence. rewrite app_nil_r. exact IH.
Qed.

End EventFacts.

(** ** File-system calls on a well-formed room directory *)
Module FsFacts.
Import Store Backup View.

Lemma prefixes_aux_snoc acc p x :
  prefixes_aux acc (p ++ [x]) = prefixes_aux acc p ++ [acc ++ p ++ [x]].
Proof.
  revert acc; induction p as [|c r IH]; intros acc; simpl; [reflexivity|].
  rewrite IH, <- app_assoc. reflexivity.
Qed.

Lemma prefixes_snoc p x : prefixes (p ++ [x]) = prefixes p ++ [p ++ [x]].
Proof. unfold prefixes. by rewrite prefixes_aux_snoc. Qed.

Lemma prefixes_aux_length acc p q :
  In q (prefixes_aux acc p) -> (length q <= length acc + length p)%nat.
Proof.
  revert acc; induction p as [|c r IH]; intros acc; simpl; [done|].
  intros [<-|H]; [rewrite length_app; simpl; lia|].
  apply IH in H. rewrite length_app in H. simpl in H. lia.
Qed.

Lemma prefixes_length p q : In q (prefixes p) -> (length q <= length p)%nat.
Proof. apply prefixes_aux_length. Qed.

Lemma mkdir_walk_ok qs fs :
  (forall q c, In q qs -> fs !! q <> Some (EFile c)) ->
  exists fs', mkdir_walk qs fs = Ok fs' /\
    (forall k, In k qs -> fs' !! k = Some EDir) /\
    (forall k, ~ In k qs -> fs' !! k = fs !! k).
Proof.
  revert fs; induction qs as [|q qs IH]; intros fs Hq; simpl.
  - exists fs. split; [reflexivity|]. split; [done|auto].
  - destruct (fs !! q) as [[c|]|] eqn:E.
    + exfalso. apply (Hq q c); [by left|exact E].
    + destruct (IH fs) as (fs' & Hw & Hin & Hout); [intros; apply Hq; by right|].
      exists fs'. split; [exact Hw|]. split.
      * intros k [<-|Hk]; [|by apply Hin].
        destruct (List.in_dec (List.list_eq_dec String.string_dec) q qs); [by apply Hin|].
        rewrite Hout by done. exact E.
      * intros k Hk. apply Hout. intros H. apply Hk. by right.
    + destruct (IH (<[q := EDir]> fs)) as (fs' & Hw & Hin & Hout).
      { intros q' c Hq'. destruct (decide (q' = q)) as [->|Hne].
        - by rewrite lookup_insert_eq.
        - rewrite lookup_insert_ne by congruence. apply Hq. by right. }
      exists fs'. split; [exact Hw|]. split.
      * intros k [<-|Hk]; [|by apply Hin].
        destruct (List.in_dec (List.list_eq_dec String.string_dec) q qs); [by apply Hin|].
        rewrite Hout by done. apply lookup_insert_eq.
      * intros k Hk. rewrite Hout by (intros H; apply Hk; by right).
        apply lookup_insert_ne. intros ->. apply Hk. by left.
Qed.

Lemma app_snoc_len rp x (k : path) : k = rp ++ x -> length k = (length rp + length x)%nat.
Proof. intros ->. apply length_app. Qed.

Lemma mkdirAll_room rp d w :
  room_ok rp (w_fs w) ->
  exists fs', mkdirAll (rp ++ [d]) w = (Ok tt, mkWorld fs' (w_trace w) (w_tick w)) /\
    room_ok rp fs' /\ fs' !! (rp ++ [d]) = Some EDir /\
    (forall k, (length rp + 1 < length k)%nat -> fs' !! k = w_fs w !! k).
Proof.
  intros (H1 & H2 & H3). destruct w as [fs tr n]; simpl in *.
  destruct (mkdir_walk_ok (prefixes (rp ++ [d])) fs) as (fs' & Hw & Hin & Hout).
  { intros q c. rewrite prefixes_snoc. intros [Hq|[<-|[]]]%in_app_or.
    - by rewrite H1.
    - apply H2. }
  exists fs'. unfold mkdirAll, bind, get_fs, put_fs. simpl. rewrite Hw.
  assert (Hlen : forall k, (length rp + 1 < length k)%nat -> ~ In k (prefixes (rp ++ [d]))).
  { intros k Hk Hp. apply prefixes_length in Hp. rewrite length_app in Hp. simpl in Hp. lia. }
  split; [reflexivity|]. split; [|split].
  - split; [|split].
    + intros q Hq. apply Hin. rewrite prefixes_snoc. apply in_or_app. by left.
    + intros d' c. destruct (List.in_dec (List.list_eq_dec String.string_dec) (rp ++ [d']) (prefixes (rp ++ [d]))).
      * by rewrite Hin.
      * rewrite Hout by done. apply H2.
    + intros d'. rewrite Hout; [apply H3|]. apply Hlen. rewrite length_app. simpl. lia.
  - apply Hin. rewrite prefixes_snoc. apply in_or_app. right. by left.
  - intros k Hk. apply Hout, Hlen, Hk.
Qed.

Lemma removelast_day rp d : removelast (rp ++ [d; dataFilename]) = rp ++ [d].
Proof. rewrite removelast_app by discriminate. reflexivity. Qed.

Lemma day_dirs_not_files rp d fs :
  room_ok rp fs -> fs !! (rp ++ [d]) = Some EDir ->
  existsb (is_file fs) (prefixes (rp ++ [d])) = false.
Proof.
  intros (H1 & _ & _) Hd. apply not_true_is_false. intros (q & Hq & Hf)%existsb_exists.
  rewrite prefixes_snoc in Hq. unfold is_file in Hf.
  apply in_app_or in Hq as [Hq|[<-|[]]].
  - by rewrite H1 in Hf.
  - by rewrite Hd in Hf.
Qed.

Lemma readExisting_room rp d fs tr n :
  room_ok rp fs -> fs !! (rp ++ [d]) = Some EDir ->
  readExisting (rp ++ [d; dataFilename]) (mkWorld fs tr n) =
  (Ok (shard rp fs d), mkWorld fs tr n).
Proof.
  intros Hok Hd. pose proof Hok as (_ & _ & H3).
  unfold readExisting, readFile, try, bind, get_fs, shard. simpl.
  destruct (fs !! (rp ++ [d; dataFilename])) as [[c|]|] eqn:E.
  - destruct c; reflexivity.
  - exfalso. exact (H3 d E).
  - unfold missing_error. rewrite removelast_day, day_dirs_not_files by assumption.
    reflexivity.
Qed.

Lemma writeFile_room rp d c fs tr n :
  room_ok rp fs -> fs !! (rp ++ [d]) = Some EDir ->
  writeFile (rp ++ [d; dataFilename]) c (mkWorld fs tr n) =
  (Ok tt, mkWorld (<[rp ++ [d; dataFilename] := EFile c]> fs)
             (tr ++ [AWrite (rp ++ [d; dataFilename]) c]) n).
Proof.
  intros (_ & _ & H3) Hd. unfold writeFile, write_fs, bind, get_fs, put_fs, emit. simpl.
  assert (Hw : match fs !! (rp ++ [d; dataFilename]) with
    | Some EDir => Err (EISDIR (rp ++ [d; dataFilename]))
    | _ => match removelast (rp ++ [d; dataFilename]) with
           | [] => Ok (<[rp ++ [d; dataFilename] := EFile c]> fs)
           | d0 => match fs !! d0 with
                   | Some EDir => Ok (<[rp ++ [d; dataFilename] := EFile c]> fs)
                   | Some (EFile _) => Err (ENOTDIR (rp ++ [d; dataFilename]))
                   | None => Err (missing_error fs (rp ++ [d; dataFilename]))
                   end
           end
    end = Ok (<[rp ++ [d; dataFilename] := EFile c]> fs)).
  { rewrite removelast_day.
    destruct (rp ++ [d]) as [|x r] eqn:E; [destruct rp; discriminate|].
    rewrite Hd. destruct (fs !! (rp ++ [d; dataFilename])) as [[]|] eqn:F;
      [reflexivity| exfalso; exact (H3 d F) | reflexivity]. }
  rewrite Hw. reflexivity.
Qed.

Lemma room_ok_write rp d c fs :
  room_ok rp fs -> room_ok rp (<[rp ++ [d; dataFilename] := EFile c]> fs).
Proof.
  intros (H1 & H2 & H3). split; [|split].
  - intros q Hq. rewrite lookup_insert_ne; [by apply H1|].
    intros <-. apply prefixes_length in Hq. rewrite length_app in Hq. simpl in Hq. lia.
  - intros d' c'. rewrite lookup_insert_ne; [apply H2|].
    intros E. apply (f_equal length) in E. rewrite !length_app in E. simpl in E. lia.
  - intros d'. destruct (decide (rp ++ [d; dataFilename] = rp ++ [d'; dataFilename])) as [<-|Hne].
    + by rewrite lookup_insert_eq.
    + rewrite lookup_insert_ne by exact Hne. apply H3.
Qed.

Lemma shard_write rp d d' l fs :
  shard rp (<[rp ++ [d; dataFilename] := EFile (CEvents l)]> fs) d' =
  if String.eqb d' d then l else shard rp fs d'.
Proof.
  unfold shard. destruct (String.eqb_spec d' d) as [->|Hne].
  - by rewrite lookup_insert_eq.
  - rewrite lookup_insert_ne; [reflexivity|].
    intros E. apply app_inv_head in E. congruence.
Qed.

Lemma shard_frame rp fs fs' :
  (forall k, (length rp + 1 < length k)%nat -> fs' !! k = fs !! k) ->
  forall d, shard rp fs' d = shard rp fs d.
Proof.
  intros H d. unfold shard. rewrite H; [reflexivity|]. rewrite length_app. simpl. lia.
Qed.

End FsFacts.

(** ** [processEvents] on a well-formed room directory *)
Module MergeFacts.
Import Store Backup View EventFacts FsFacts.

Lemma bind_ok {A B} (m : M A) (k : A -> M B) w a w' :
  m w = (Ok a, w') -> bind m k w = k a w'.
Proof. unfold bind. by intros ->. Qed.

Lemma bind_err {A B} (m : M A) (k : A -> M B) w e w' :
  m w = (Err e, w') -> bind m k w = (Err e, w').
Proof. unfold bind. by intros ->. Qed.

Lemma tick_eq w : tick w = (Ok (w_tick w), mkWorld (w_fs w) (w_trace w) (S (w_tick w))).
Proof. reflexivity. Qed.

Lemma processDay_room mo rp d daily w :
  room_ok rp (w_fs w) ->
  let merged := fold_left ins daily (fold_left ins (shard rp (w_fs w) d) ∅) in
  let out := sliceStable (map snd (range_ids mo (w_tick w) (map_to_list merged))) in
  exists fs', processDay mo rp (d, daily) w =
    (Ok tt, mkWorld fs' (w_trace w ++ [AWrite (rp ++ [d; dataFilename]) (CEvents out)])
                    (S (w_tick w))) /\
    room_ok rp fs' /\
    forall d', shard rp fs' d' = if String.eqb d' d then out else shard rp (w_fs w) d'.
Proof.
  intros Hok merged out.
  destruct (mkdirAll_room rp d w Hok) as (fs1 & Hm & Hok1 & Hd1 & Hfr).
  exists (<[rp ++ [d; dataFilename] := EFile (CEvents out)]> fs1).
  unfold processDay. rewrite (bind_ok _ _ _ _ _ Hm). cbv beta zeta.
  rewrite <- app_assoc. change ([d] ++ [dataFilename]) with [d; dataFilename].
  rewrite (bind_ok _ _ _ _ _ (readExisting_room rp d fs1 _ _ Hok1 Hd1)).
  rewrite (shard_frame rp (w_fs w) fs1 Hfr d).
  rewrite (bind_ok _ _ _ _ _ (tick_eq _)). simpl w_tick. simpl w_fs. simpl w_trace.
  rewrite (writeFile_room rp d _ fs1 _ _ Hok1 Hd1).
  split; [reflexivity|]. split; [by apply room_ok_write|].
  intros d'. rewrite shard_write. destruct (String.eqb d' d); [reflexivity|].
  apply shard_frame, Hfr.
Qed.

Lemma fmap_map_eq {X Y} (f : X -> Y) (l : list X) : f <$> l = map f l.
Proof. induction l as [|x l IH]; [reflexivity|]. change (f x :: (f <$> l) = f x :: map f l). by rewrite IH. Qed.

Lemma mapM_processDay mo rp xs w :
  MapOrder_ok mo -> List.NoDup (map fst xs) -> room_ok rp (w_fs w) ->
  exists w', mapM_ (processDay mo rp) xs w = (Ok tt, w') /\ room_ok rp (w_fs w') /\
    (forall d daily, In (d, daily) xs -> exists L,
       Permutation L (map_to_list (fold_left ins daily (fold_left ins (shard rp (w_fs w) d) ∅))) /\
       shard rp (w_fs w') d = sliceStable (map snd L)) /\
    (forall d, ~ In d (map fst xs) -> shard rp (w_fs w') d = shard rp (w_fs w) d).
Proof.
  intros Hmo. revert w; induction xs as [|[d daily] xs IH]; intros w Hnd Hok.
  - exists w. split; [reflexivity|]. split; [exact Hok|]. split; [intros ? ? []|auto].
  - simpl in Hnd. inversion Hnd as [|? ? Hnotin Hnd']; subst.
    destruct (processDay_room mo rp d daily w Hok) as (fs1 & Hp & Hok1 & Hsh).
    set (w1 := mkWorld fs1 _ _) in Hp.
    destruct (IH w1 Hnd' Hok1) as (w' & Hm & Hok' & Hin' & Hout').
    exists w'. simpl mapM_. rewrite (bind_ok _ _ _ _ _ Hp). split; [exact Hm|].
    split; [exact Hok'|]. split.
    + intros d0 daily0 [Heq|Hin].
      * inversion Heq; subst d0 daily0.
        eexists. split; [apply (proj2 Hmo)|].
        rewrite Hout' by exact Hnotin. simpl w_fs. rewrite Hsh, String.eqb_refl. reflexivity.
      * destruct (Hin' d0 daily0 Hin) as (L & HL & Hs). exists L.
        assert (Hne : d0 <> d).
        { intros ->. apply Hnotin. apply in_map_iff. exists (d, daily0). auto. }
        simpl w_fs in HL. rewrite Hsh in HL.
        destruct (String.eqb_spec d0 d); [congruence|]. split; assumption.
    + intros d0 Hd0. simpl in Hd0. rewrite Hout' by tauto. simpl w_fs. rewrite Hsh.
      destruct (String.eqb_spec d0 d); [subst; tauto|reflexivity].
Qed.

Lemma processEvents_room mo rp evs w :
  MapOrder_ok mo -> room_ok rp (w_fs w) ->
  exists w', processEvents mo rp evs w = (Ok tt, w') /\ room_ok rp (w_fs w') /\
    forall d,
      (List.filter (same_day d) evs = [] /\ shard rp (w_fs w') d = shard rp (w_fs w) d) \/
      (exists L,
         Permutation L (map_to_list (fold_left ins (List.filter (same_day d) evs)
                                       (fold_left ins (shard rp (w_fs w) d) ∅))) /\
         shard rp (w_fs w') d = sliceStable (map snd L)).
Proof.
  intros Hmo Hok. unfold processEvents. rewrite (bind_ok _ _ _ _ _ (tick_eq _)).
  set (g := group_by_date evs).
  set (xs := range_dates mo (w_tick w) (map_to_list g)).
  assert (Hp : Permutation xs (map_to_list g)) by apply (proj1 Hmo).
  assert (Hnd : List.NoDup (map fst xs)).
  { eapply Permutation_NoDup; [apply Permutation_map, Permutation_sym, Hp|].
    rewrite <- fmap_map_eq. apply NoDup_ListNoDup, NoDup_fst_map_to_list. }
  set (w1 := mkWorld (w_fs w) (w_trace w) (S (w_tick w))).
  destruct (mapM_processDay mo rp xs w1 Hmo Hnd Hok) as (w' & Hm & Hok' & Hin & Hout).
  exists w'. split; [exact Hm|]. split; [exact Hok'|].
  intros d. pose proof (group_by_date_lookup evs d) as Hg. fold g in Hg.
  destruct (List.filter (same_day d) evs) as [|e r] eqn:Hf.
  - left. split; [reflexivity|]. apply Hout. intros (x & Hx & Hxs)%in_map_iff.
    destruct x as [d' daily]. simpl in Hx; subst d'.
    eapply Permutation_in in Hxs; [|exact Hp].
    apply list_elem_of_In, elem_of_map_to_list in Hxs. congruence.
  - right. apply Hin. eapply Permutation_in; [apply Permutation_sym, Hp|].
    apply list_elem_of_In, elem_of_map_to_list. exact Hg.
Qed.

Lemma merge_step rp fs fs' d prev b :
  represents (shard rp fs d) (fold_left ins (List.filter (same_day d) prev) ∅) ->
  ((List.filter (same_day d) b = [] /\ shard rp fs' d = shard rp fs d) \/
   (exists L,
      Permutation L (map_to_list (fold_left ins (List.filter (same_day d) b)
                                    (fold_left ins (shard rp fs d) ∅))) /\
      shard rp fs' d = sliceStable (map snd L))) ->
  (Sorted ts_le (shard rp fs d) -> Sorted ts_le (shard rp fs' d)) /\
  represents (shard rp fs' d) (fold_left ins (List.filter (same_day d) (prev ++ b)) ∅).
Proof.
  intros Hrep [[Hb Hs]|(L & HL & Hs)]; rewrite Hs.
  - rewrite List.filter_app, Hb, app_nil_r. auto.
  - split; [intros _; apply sliceStable_sorted|].
    rewrite (represents_fold _ _ Hrep), <- fold_left_app, <- List.filter_app in HL.
    eapply represents_perm; [|apply represents_map_values, fold_ins_id_keyed, id_keyed_empty].
    rewrite sliceStable_perm. apply Permutation_sym, Permutation_map, HL.
Qed.

Lemma process_batches_inv mo rp bs prev w :
  MapOrder_ok mo -> room_ok rp (w_fs w) ->
  (forall d, Sorted ts_le (shard rp (w_fs w) d) /\
     represents (shard rp (w_fs w) d) (fold_left ins (List.filter (same_day d) (concat prev)) ∅)) ->
  exists w', process_batches mo rp bs w = (Ok tt, w') /\ room_ok rp (w_fs w') /\
    forall d, Sorted ts_le (shard rp (w_fs w') d) /\
      represents (shard rp (w_fs w') d)
                 (fold_left ins (List.filter (same_day d) (concat (prev ++ bs))) ∅).
Proof.
  intros Hmo. revert prev w; induction bs as [|b bs IH]; intros prev w Hok Hinv.
  - exists w. rewrite app_nil_r. auto.
  - destruct (processEvents_room mo rp b w Hmo Hok) as (w1 & Hp & Hok1 & Hd).
    destruct (IH (prev ++ [b]) w1 Hok1) as (w' & Hm & Hok' & Hinv').
    { intros d. destruct (Hinv d) as [Hso Hrep].
      destruct (merge_step rp (w_fs w) (w_fs w1) d (concat prev) b Hrep (Hd d)) as [Hso' Hrep'].
      split; [auto|]. rewrite concat_app. simpl. rewrite app_nil_r. exact Hrep'. }
    exists w'. simpl process_batches. rewrite (bind_ok _ _ _ _ _ Hp).
    rewrite <- app_assoc in Hinv'. auto.
Qed.

Lemma represents_empty : represents [] ∅.
Proof.
  split; [constructor|]. intros k e. rewrite lookup_empty. split; [discriminate|].
  intros [[] _].
Qed.

Lemma represents_latest l l' e :
  represents l (fold_left ins l' ∅) -> (In e l <-> latest_by_id l' (ev_id e) = Some e).
Proof.
  intros [_ Hm]. split.
  - intros Hin. pose proof (proj2 (Hm _ e) (conj Hin eq_refl)) as H.
    rewrite fold_ins_lookup in H. destruct (latest_by_id l' (ev_id e)); [exact H|].
    by rewrite lookup_empty in H.
  - intros H. apply (Hm (ev_id e) e). rewrite fold_ins_lookup, H. reflexivity.
Qed.

(** A file system with nothing below the room directory. *)
Lemma room_ok_shallow rp fs :
  (forall q, In q (prefixes rp) -> fs !! q = Some EDir) ->
  (forall k e, fs !! k = Some e -> (length k <= length rp)%nat) ->
  room_ok rp fs /\ forall d, shard rp fs d = [].
Proof.
  intros H1 H2.
  assert (Hn : forall k, (length rp < length k)%nat -> fs !! k = None).
  { intros k Hk. destruct (fs !! k) as [e|] eqn:E; [|reflexivity].
    apply H2 in E. lia. }
  split; [split; [exact H1|split]|].
  - intros d c. rewrite Hn; [discriminate|]. rewrite length_app. simpl. lia.
  - intros d. rewrite Hn; [discriminate|]. rewrite length_app. simpl. lia.
  - intros d. unfold shard. rewrite Hn; [reflexivity|]. rewrite length_app. simpl. lia.
Qed.

Lemma listed_order_ok : MapOrder_ok listed_order.
Proof. split; intros; reflexivity. Qed.

Lemma world0_room : room_ok room0 (w_fs world0) /\ forall d, shard room0 (w_fs world0) d = [].
Proof.
  apply room_ok_shallow.
  - intros q Hq. simpl in Hq. destruct Hq as [<-|[<-|[]]]; reflexivity.
  - intros k e. simpl. rewrite !lookup_insert_Some, lookup_empty.
    intros [[<- _]|[_ [[<- _]|[_ H]]]]; [simpl; lia|simpl; lia|discriminate].
Qed.

End MergeFacts.
Import Store Backup View EventFacts MergeFacts.

(** Claim C2: starting from a room with no day files, after any sequence of
    batches has been merged, every day file is sorted by timestamp, holds
    each id once, and holds exactly the last merged copy of each id among
    that day's events of all batches (the union deduplicated by id). For
    batch A then batch B of the worked example, the 1970-01-01 file holds
    exactly 3 events, sorted, with distinct ids. This holds for every order
    Go picks when iterating its maps. *)
Theorem processEvents_shard_union mo rp w :
  MapOrder_ok mo -> room_ok rp (w_fs w) -> (forall d, shard rp (w_fs w) d = []) ->
  (forall batches, exists w', process_batches mo rp batches w = (Ok tt, w') /\
     forall d, Sorted ts_le (shard rp (w_fs w') d) /\
       NoDup (map ev_id (shard rp (w_fs w') d)) /\
       forall e, In e (shard rp (w_fs w') d) <->
                 latest_by_id (List.filter (same_day d) (concat batches)) (ev_id e) = Some e) /\
  (exists w', process_batches mo rp [batchA; batchB] w = (Ok tt, w') /\
     length (shard rp (w_fs w') "1970-01-01") = 3%nat /\
     Sorted ts_le (shard rp (w_fs w') "1970-01-01") /\
     NoDup (map ev_id (shard rp (w_fs w') "1970-01-01"))).
Proof.
  intros Hmo Hok Hempty.
  assert (Hgen : forall batches, exists w', process_batches mo rp batches w = (Ok tt, w') /\
    forall d, Sorted ts_le (shard rp (w_fs w') d) /\
      represents (shard rp (w_fs w') d)
                 (fold_left ins (List.filter (same_day d) (concat batches)) ∅)).
  { intros batches.
    destruct (process_batches_inv mo rp batches [] w Hmo Hok) as (w' & Hp & _ & Hinv).
    - intros d. rewrite Hempty. split; [constructor|apply represents_empty].
    - exists w'. split; [exact Hp|exact Hinv]. }
  split.
  - intros batches. destruct (Hgen batches) as (w' & Hp & Hinv). exists w'.
    split; [exact Hp|]. intros d. destruct (Hinv d) as [Hs Hrep].
    split; [exact Hs|]. split; [exact (proj1 Hrep)|].
    intros e. apply represents_latest, Hrep.
  - destruct (Hgen [batchA; batchB]) as (w' & Hp & Hinv). exists w'. split; [exact Hp|].
    destruct (Hinv "1970-01-01"%string) as [Hs Hrep].
    pose proof (represents_unique _ _ _ Hrep
      (represents_map_values _ (fold_ins_id_keyed _ _ id_keyed_empty))) as Hperm.
    split; [|split; [exact Hs|exact (proj1 Hrep)]].
    rewrite (Permutation_length Hperm), length_map. vm_compute. reflexivity.
Qed.

Lemma processEvents_shard_union_witness :
  exists w', process_batches listed_order room0 [batchA; batchB] world0 = (Ok tt, w') /\
     length (shard room0 (w_fs w') "1970-01-01") = 3%nat.
Proof.
  destruct (processEvents_shard_union listed_order room0 world0 listed_order_ok
              (proj1 world0_room) (proj2 world0_room)) as [_ (w' & Hp & Hl & _)].
  exists w'. split; [exact Hp|exact Hl].
Defined.

(** ** Re-merging events already stored *)
Module RemergeFacts.
Import Store Backup View EventFacts MergeFacts.






End RemergeFacts.
Import RemergeFacts.




(** ** What a run appends to the trace *)
Module TraceFacts.
Import Store Backup View.

Lemma only_ret {A} Q (a : A) : only_actions Q (ret a).
Proof. intros w r w' [= _ <-]. exists []. rewrite app_nil_r. auto. Qed.

Lemma only_fail {A} Q e : only_actions Q (@fail A e).
Proof. intros w r w' [= _ <-]. exists []. rewrite app_nil_r. auto. Qed.

Lemma only_bind {A B} Q (m : M A) (k : A -> M B) :
  only_actions Q m -> (forall a, only_actions Q (k a)) -> only_actions Q (bind m k).
Proof.
  intros Hm Hk w r w'. unfold bind. destruct (m w) as [[a|e] w1] eqn:E.
  - intros H. destruct (Hm _ _ _ E) as (ws1 & T1 & F1).
    destruct (Hk a _ _ _ H) as (ws2 & T2 & F2). exists (ws1 ++ ws2).
    rewrite T2, T1, app_assoc. split; [reflexivity|]. by apply Forall_app.
  - intros [= _ <-]. exact (Hm _ _ _ E).
Qed.

Lemma only_try {A} Q (m : M A) : only_actions Q m -> only_actions Q (try m).
Proof. intros Hm w r w'. unfold try. destruct (m w) as [r1 w1] eqn:E. intros [= _ <-]. exact (Hm _ _ _ E). Qed.

Lemma only_get_fs Q : only_actions Q get_fs.
Proof. intros w r w' [= _ <-]. exists []. rewrite app_nil_r. auto. Qed.

Lemma only_put_fs Q fs : only_actions Q (put_fs fs).
Proof. intros w r w' [= _ <-]. exists []. simpl. rewrite app_nil_r. auto. Qed.

Lemma only_tick Q : only_actions Q tick.
Proof. intros w r w' [= _ <-]. exists []. simpl. rewrite app_nil_r. auto. Qed.

Lemma only_emit (Q : action -> Prop) a : Q a -> only_actions Q (emit a).
Proof. intros Ha w r w' [= _ <-]. exists [a]. simpl. auto. Qed.

Lemma only_mapM_ {X} Q (f : X -> M unit) l :
  (forall x, only_actions Q (f x)) -> only_actions Q (mapM_ f l).
Proof.
  intros Hf. induction l as [|x l IH]; simpl; [apply only_ret|].
  apply only_bind; [apply Hf|intros _; exact IH].
Qed.

Lemma only_mkdirAll Q p : only_actions Q (mkdirAll p).
Proof.
  unfold mkdirAll. apply only_bind; [apply only_get_fs|intros fs].
  destruct (mkdir_walk (prefixes p) fs); [apply only_put_fs|apply only_fail].
Qed.

Lemma only_readFile Q p : only_actions Q (readFile p).
Proof.
  unfold readFile. apply only_bind; [apply only_get_fs|intros fs].
  destruct (fs !! p) as [[c|]|]; [apply only_ret|apply only_fail|apply only_fail].
Qed.

Lemma only_writeFile (Q : action -> Prop) p c : Q (AWrite p c) -> only_actions Q (writeFile p c).
Proof.
  intros Hq. unfold writeFile. apply only_bind; [apply only_get_fs|intros fs].
  destruct (write_fs p c fs); [|apply only_fail].
  apply only_bind; [apply only_put_fs|intros _; by apply only_emit].
Qed.

Lemma only_readExisting Q p : only_actions Q (readExisting p).
Proof.
  unfold readExisting. apply only_bind; [apply only_try, only_readFile|intros r].
  destruct r as [[]|[]]; (apply only_ret || apply only_fail).
Qed.

Lemma only_processEvents mo rp evs : only_actions (data_write rp) (processEvents mo rp evs).
Proof.
  unfold processEvents. apply only_bind; [apply only_tick|intros n].
  apply only_mapM_. intros [d daily]. unfold processDay.
  apply only_bind; [apply only_mkdirAll|intros _].
  apply only_bind; [apply only_readExisting|intros ex].
  apply only_bind; [apply only_tick|intros n'].
  apply only_writeFile. exists d, (CEvents (sliceStable (map snd
    (range_ids mo n' (map_to_list (fold_left ins daily (fold_left ins ex ∅))))))).
  by rewrite <- app_assoc.
Qed.

Lemma only_readMetadata Q rp : only_actions Q (readMetadata rp).
Proof.
  unfold readMetadata. apply only_bind; [apply only_try, only_readFile|intros r].
  destruct r as [[]|[]]; (apply only_ret || apply only_fail).
Qed.

Lemma only_nil {A} (m : M A) w r w' :
  only_actions (fun _ => False) m -> m w = (r, w') -> w_trace w' = w_trace w.
Proof.
  intros Hm E. destruct (Hm _ _ _ E) as ([|a ws] & T & F); [by rewrite T, app_nil_r|].
  inversion F; contradiction.
Qed.

Lemma data_not_meta rp a : data_write rp a -> ~ meta_write rp a.
Proof.
  intros (d & c & ->) (c' & E). injection E as E _. apply app_inv_head in E. discriminate.
Qed.


End TraceFacts.

Module LoopFacts.
Import Store Backup View TraceFacts.

Lemma omap_fetched_data rp ws : Forall (data_write rp) ws -> omap fetched ws = [].
Proof.
  induction 1 as [|a ws (d & c & ->) _ IH]; [reflexivity|]. simpl. exact IH.
Qed.

Lemma fetch_loop_trace mo remote fuel rp cur total w r w' :
  fetch_loop mo remote fuel rp cur total w = (r, w') ->
  exists ws, w_trace w' = w_trace w ++ ws /\ Forall (fun a => ~ meta_write rp a) ws /\
    (forall t n, r = Ok (t, n, None) -> last_fetch ws = Some t).
Proof.
  revert cur total w r w'. induction fuel as [|f IH]; intros cur total w r w' H.
  - simpl in H. injection H as <- <-. exists []. rewrite app_nil_r.
    split; [reflexivity|]. split; [constructor|]. intros t n [=].
  - simpl in H. unfold bind at 1, emit at 1 in H.
    set (w1 := mkWorld (w_fs w) (w_trace w ++ [AFetch cur]) (w_tick w)) in H.
    assert (Hf : ~ meta_write rp (AFetch cur)) by (intros (c & [=])).
    destruct (remote cur) as [[[|x xs] nxt]|].
    + injection H as <- <-. exists [AFetch cur]. split; [reflexivity|].
      split; [by constructor|]. intros t n [= <- _]. reflexivity.
    + unfold bind at 1, try at 1 in H.
      destruct (processEvents mo rp (x :: xs) w1) as [r1 w2] eqn:Hp.
      destruct (only_processEvents mo rp (x :: xs) _ _ _ Hp) as (ws2 & T2 & F2).
      assert (Fm : Forall (fun a => ~ meta_write rp a) ws2)
        by (eapply Forall_impl; [exact F2|apply data_not_meta]).
      assert (Lf : omap fetched (AFetch cur :: ws2) = [cur])
        by (change (omap fetched (AFetch cur :: ws2)) with (cur :: omap fetched ws2);
            rewrite (omap_fetched_data rp ws2 F2); reflexivity).
      destruct r1 as [u|e].
      * destruct (String.eqb cur nxt).
        -- injection H as <- <-. exists (AFetch cur :: ws2). rewrite T2. simpl.
           rewrite <- app_assoc. split; [reflexivity|]. split; [by constructor|].
           intros t n [= <- _]. unfold last_fetch. rewrite Lf. reflexivity.
        -- unfold bind at 1, emit at 1 in H.
           destruct (IH _ _ _ _ _ H) as (ws3 & T3 & F3 & L3).
           exists (AFetch cur :: ws2 ++ ASleep :: ws3). rewrite T3. simpl. rewrite T2. simpl.
           rewrite <- !app_assoc. split; [reflexivity|].
           split; [constructor; [exact Hf|apply Forall_app; split; [exact Fm|]]|].
           { constructor; [intros (c & [=])|exact F3]. }
           intros t n Hr. specialize (L3 t n Hr). unfold last_fetch in *.
           replace (AFetch cur :: ws2 ++ ASleep :: ws3) with ((AFetch cur :: ws2 ++ [ASleep]) ++ ws3)
             by (simpl; rewrite <- app_assoc; reflexivity).
           rewrite omap_app, last_app, L3. reflexivity.
      * injection H as <- <-. exists (AFetch cur :: ws2). rewrite T2. simpl.
        rewrite <- app_assoc. split; [reflexivity|]. split; [by constructor|].
        intros t n [=].
    + injection H as <- <-. exists [AFetch cur]. split; [reflexivity|].
      split; [by constructor|]. intros t n [=].
Qed.

Lemma fetch_loop_merged mo remote fuel rp cur total w t n w' :
  fetch_loop mo remote fuel rp cur total w = (Ok (t, n, None), w') ->
  exists ps, merged_pages mo remote rp w cur ps t w'.
Proof.
  revert cur total w w'. induction fuel as [|f IH]; intros cur total w w' H.
  - simpl in H. discriminate H.
  - simpl in H. unfold bind at 1, emit at 1 in H.
    change (mkWorld (w_fs w) (w_trace w ++ [AFetch cur]) (w_tick w))
      with (with_action w (AFetch cur)) in H.
    destruct (remote cur) as [[[|x xs] nxt]|] eqn:Er.
    + injection H as <- _ <-. exists []. split; [reflexivity|]. split; [reflexivity|].
      exists nxt. exact Er.
    + unfold bind at 1, try at 1 in H.
      destruct (processEvents mo rp (x :: xs) (with_action w (AFetch cur))) as [[u|e] w2] eqn:Hp;
        [|discriminate H].
      destruct u. destruct (String.eqb cur nxt) eqn:Eq.
      * injection H as <- _ <-. exists [mkPage (x :: xs) nxt w2]. cbn [merged_pages pg_chunk pg_next pg_merged].
        rewrite Eq. split; [exact Er|]. split; [discriminate|]. split; [exact Hp|]. auto.
      * unfold bind at 1, emit at 1 in H.
        destruct (IH _ _ _ _ H) as (ps & Hps).
        exists (mkPage (x :: xs) nxt w2 :: ps). cbn [merged_pages pg_chunk pg_next pg_merged].
        rewrite Eq. split; [exact Er|]. split; [discriminate|]. split; [exact Hp|]. exact Hps.
    + discriminate H.
Qed.

Lemma writeFile_result p c w r w' :
  writeFile p c w = (r, w') ->
  (r = Ok tt /\ w_trace w' = w_trace w ++ [AWrite p c]) \/ w_trace w' = w_trace w.
Proof.
  unfold writeFile, bind, get_fs, put_fs, emit. simpl.
  destruct (write_fs p c (w_fs w)); intros [= <- <-]; [left|right]; auto.
Qed.

Lemma backupRoom_trace mo remote fuel bd roomName roomID w r w' :
  backupRoom mo remote fuel bd roomName roomID w = (r, w') ->
  exists ws post, w_trace w' = w_trace w ++ ws ++ post /\
    Forall (fun a => ~ meta_write (bd ++ [room_dir roomName roomID]) a) ws /\
    (post = [] \/
     (r = Ok tt /\ exists t, last_fetch ws = Some t /\
        post = [AWrite ((bd ++ [room_dir roomName roomID]) ++ [metadataFilename]) (CMeta t)] /\
        exists tok w1 w2 ps w3,
          readMetadata (bd ++ [room_dir roomName roomID]) w1 = (Ok tok, w2) /\
          w_trace w2 = w_trace w /\
          merged_pages mo remote (bd ++ [room_dir roomName roomID]) w2 tok ps t w3 /\
          w_trace w3 = w_trace w ++ ws)).
Proof.
  set (rp := bd ++ [room_dir roomName roomID]).
  intros H.
  assert (Hnil : forall ws, w_trace w' = w_trace w ++ ws ->
            Forall (fun a => ~ meta_write rp a) ws ->
            exists ws0 post, w_trace w' = w_trace w ++ ws0 ++ post /\
              Forall (fun a => ~ meta_write rp a) ws0 /\
              (post = [] \/ (r = Ok tt /\ exists t, last_fetch ws0 = Some t /\
                 post = [AWrite (rp ++ [metadataFilename]) (CMeta t)] /\
                 exists tok w1 w2 ps w3, readMetadata rp w1 = (Ok tok, w2) /\
                   w_trace w2 = w_trace w /\ merged_pages mo remote rp w2 tok ps t w3 /\
                   w_trace w3 = w_trace w ++ ws0))).
  { intros ws T F. exists ws, []. rewrite app_nil_r. auto. }
  revert H. unfold backupRoom. fold rp. unfold bind at 1.
  destruct (mkdirAll rp w) as [[u|e] w1] eqn:E1;
    pose proof (only_nil _ _ _ _ (only_mkdirAll _ rp) E1) as T1;
    [|intros [= <- <-]; apply (Hnil []); [by rewrite T1, app_nil_r|constructor]].
  unfold bind at 1.
  destruct (readMetadata rp w1) as [[tok|e] w2] eqn:E2;
    pose proof (only_nil _ _ _ _ (only_readMetadata _ rp) E2) as T2;
    [|intros [= <- <-]; apply (Hnil []); [by rewrite T2, T1, app_nil_r|constructor]].
  unfold bind at 1.
  destruct (fetch_loop mo remote fuel rp tok 0 w2) as [[[[t n] err]|e] w3] eqn:E3;
    destruct (fetch_loop_trace _ _ _ _ _ _ _ _ _ E3) as (ws & T3 & F3 & L3);
    rewrite T2, T1 in T3;
    [|intros [= <- <-]; exact (Hnil ws T3 F3)].
  destruct err as [e|]; [intros [= <- <-]; exact (Hnil ws T3 F3)|].
  destruct (fetch_loop_merged _ _ _ _ _ _ _ _ _ _ E3) as (ps & Hps).
  unfold updateMetadataToken. destruct (String.eqb t tok).
  - intros [= <- <-]. exact (Hnil ws T3 F3).
  - unfold bind, try. destruct (writeMetadata rp t w3) as [r4 w4] eqn:E4.
    intros [= <- <-]. unfold writeMetadata in E4.
    destruct (writeFile_result _ _ _ _ _ E4) as [[_ T4]|T4].
    + exists ws, [AWrite (rp ++ [metadataFilename]) (CMeta t)].
      rewrite T4, T3, app_assoc. split; [reflexivity|]. split; [exact F3|].
      right. split; [reflexivity|]. exists t. split; [apply (L3 t n); reflexivity|].
      split; [reflexivity|]. exists tok, w1, w2, ps, w3.
      split; [exact E2|]. split; [rewrite T2; exact T1|]. split; [exact Hps|exact T3].
    + apply Hnil with ws; [by rewrite T4|exact F3].
Qed.

End LoopFacts.
Import LoopFacts.




(** Claim C6: when the merge ([processEvents]) of a fetched non-empty page
    fails with error [e], the fetch loop stops at once and returns the
    token in effect before that page ([cur]), the count so far and [e].
    Also, a [backupRoom] run that ends in an error writes no metadata
    (checkpoint) file. *)
Theorem fetch_loop_merge_error mo remote fuel rp cur total w chunk nextToken e w1 :
  remote cur = Some (chunk, nextToken) -> chunk <> [] ->
  processEvents mo rp chunk (mkWorld (w_fs w) (w_trace w ++ [AFetch cur]) (w_tick w)) = (Err e, w1) ->
  fetch_loop mo remote (S fuel) rp cur total w = (Ok (cur, total, Some e), w1) /\
  (forall fuel' bd roomName roomID w0 w' e',
     backupRoom mo remote fuel' bd roomName roomID w0 = (Err e', w') ->
     exists ws, w_trace w' = w_trace w0 ++ ws /\
       Forall (fun a => ~ meta_write (bd ++ [room_dir roomName roomID]) a) ws).
Proof.
  intros Hr Hc Hp. split.
  - simpl. unfold bind at 1, emit at 1. rewrite Hr.
    destruct chunk as [|c cs]; [congruence|].
    unfold bind, try. rewrite Hp. reflexivity.
  - intros fuel' bd roomName roomID w0 w' e' H.
    destruct (backupRoom_trace _ _ _ _ _ _ _ _ _ H) as (ws & post & T & F & P).
    exists ws. destruct P as [->|[[=] _]]. rewrite app_nil_r in T. auto.
Qed.

Lemma fetch_loop_merge_error_witness :
  fetch_loop listed_order remote1 1 alice_room EmptyString 0 world_bad =
    (Ok (EmptyString, 0%nat, Some (ENOTDIR (alice_room ++ ["2024-01-15"]))),
     snd (processEvents listed_order alice_room [ev1]
            (mkWorld (w_fs world_bad) (w_trace world_bad ++ [AFetch EmptyString])
               (w_tick world_bad)))).
Proof.
  refine (proj1 (fetch_loop_merge_error listed_order remote1 0 alice_room EmptyString 0 world_bad
                   [ev1] "t1" (ENOTDIR (alice_room ++ ["2024-01-15"]))
                   (snd (processEvents listed_order alice_room [ev1]
                          (mkWorld (w_fs world_bad) (w_trace world_bad ++ [AFetch EmptyString])
                             (w_tick world_bad)))) _ _ _)).
  - vm_compute. reflexivity.
  - discriminate.
  - vm_compute. reflexivity.
Defined.

(** Claim C4 (code bug): take a room directory laid out by the program
    itself, i.e. the result of a [backupRoom] run under the name [Alice],
    which stores [ev1] and [ev2] in the day files
    [2024-01-15/data.json] and [2024-01-16/data.json]. Migrating it into
    the directory of the new name [Bob] succeeds and removes the old
    directory: [processSingleOldDirectory] skips the day subdirectories,
    collects no events, merges nothing and then calls [removeAll]. So both
    events are gone from the store, although they were never merged. *)
Lemma mergeOldRoomData_drops_day_shards :
  let w_old := snd (backupRoom listed_order remote1 10 ["backup"] "Alice" "!room1:x" world_b) in
  let bob := ["backup"] ++ [room_dir "Bob" "!room1:x"] in
  let res := mergeOldRoomData listed_order ["backup"] "!room1:x" (room_dir "Bob" "!room1:x") bob w_old in
  shard alice_room (w_fs w_old) "2024-01-15" = [ev1] /\
  shard alice_room (w_fs w_old) "2024-01-16" = [ev2] /\
  fst res = Ok tt /\
  w_trace (snd res) = w_trace w_old ++ [ARemoveAll alice_room] /\
  w_fs (snd res) !! (alice_room ++ ["2024-01-15"; dataFilename]) = None /\
  w_fs (snd res) !! (alice_room ++ ["2024-01-16"; dataFilename]) = None /\
  shard bob (w_fs (snd res)) "2024-01-15" = [] /\
  shard bob (w_fs (snd res)) "2024-01-16" = [].
Proof. vm_compute. repeat split. Qed.

Import Disk.

Module DiskFacts.

Lemma firstn_app_skipn (n m : nat) (l : bytes) :
  firstn n l ++ firstn m (skipn n l) = firstn (n + m) l.
Proof.
  revert l. induction n as [|n IH]; intros [|x l]; simpl; try reflexivity.
  - destruct m; reflexivity.
  - f_equal. apply IH.
Qed.

Lemma last_cons_map {A B} (f : A -> B) (l : list A) (x : A) :
  last (f x :: map f l) = f <$> last (x :: l).
Proof.
  revert x. induction l as [|y l IH]; intros x; [reflexivity|].
  change (last (f y :: map f l) = f <$> last (y :: l)). apply IH.
Qed.

(** The write loop only ever extends the file with the next bytes of the
    data: every content it leaves is [file] followed by a non-empty prefix
    of [rest]; when it reports success the last content is [file ++ rest];
    when it stops early the last content holds a proper prefix of [rest];
    and the full content is never reached without success. *)
Lemma fd_write_spec (answers : list write_answer) : forall file rest,
  let '(sts, ok) := fd_write file rest answers in
  (forall s, In s sts -> exists k, (0 < k <= length rest)%nat /\ s = file ++ firstn k rest) /\
  (ok = true -> last (file :: sts) = Some (file ++ rest)) /\
  (ok = false -> exists k, (k < length rest)%nat /\ last (file :: sts) = Some (file ++ firstn k rest)) /\
  (In (file ++ rest) sts -> ok = true).
Proof.
  induction answers as [|a answers IH]; intros file [|c r].
  - simpl. rewrite app_nil_r. repeat split; auto; [contradiction|discriminate].
  - simpl. repeat split; [contradiction| discriminate | |contradiction].
    intros _. exists O. rewrite app_nil_r. split; [lia|reflexivity].
  - destruct a; simpl; rewrite app_nil_r; repeat split; auto; [contradiction|discriminate|contradiction|discriminate].
  - destruct a as [n|].
    2: { simpl. repeat split; [contradiction| discriminate | |contradiction].
         intros _. exists O. rewrite app_nil_r. split; [lia|reflexivity]. }
    cbn [fd_write].
    assert (Hle : (Nat.min n (length (c :: r)) <= length (c :: r))%nat) by apply Nat.le_min_r.
    destruct (Nat.min n (length (c :: r))) as [|k'] eqn:Ek.
    { repeat split; [contradiction| discriminate | |contradiction].
      intros _. exists O. rewrite app_nil_r. split; [simpl; lia|reflexivity]. }
    set (rest := c :: r) in *.
    set (file' := file ++ firstn (S k') rest).
    specialize (IH file' (skipn (S k') rest)).
    destruct (fd_write file' (skipn (S k') rest) answers) as [sts ok].
    destruct IH as (A & B & C & D).
    assert (Hls : length (skipn (S k') rest) = (length rest - S k')%nat) by apply length_skipn.
    assert (Hfull : file' ++ skipn (S k') rest = file ++ rest)
      by (unfold file'; rewrite <- app_assoc, firstn_skipn; reflexivity).
    repeat split.
    + intros s [<-|Hs].
      * exists (S k'). split; [lia|reflexivity].
      * destruct (A s Hs) as (j & Hj & ->). exists (S k' + j)%nat. split; [lia|].
        unfold file'. rewrite <- app_assoc, firstn_app_skipn. reflexivity.
    + intros Hok. change (last (file' :: sts) = Some (file ++ rest)).
      rewrite <- Hfull. apply B, Hok.
    + intros Hok. destruct (C Hok) as (j & Hj & L). exists (S k' + j)%nat. split; [lia|].
      change (last (file' :: sts) = Some (file ++ firstn (S k' + j) rest)).
      rewrite L. unfold file'. rewrite <- app_assoc, firstn_app_skipn. reflexivity.
    + intros [Hs|Hs].
      * destruct ok; [reflexivity|]. destruct (C eq_refl) as (j & Hj & _).
        unfold file' in Hs. apply app_inv_head in Hs.
        assert (length (firstn (S k') rest) = length rest) by (rewrite Hs; reflexivity).
        rewrite length_firstn in H. lia.
      * apply D. rewrite Hfull. exact Hs.
Qed.

Lemma fd_write_first (file : bytes) (c : ascii) (r : bytes) (n : nat) (l : list write_answer) :
  (0 < n <= length (c :: r))%nat ->
  fst (fd_write file (c :: r) (WWrote n :: l)) =
    (file ++ firstn n (c :: r)) :: fst (fd_write (file ++ firstn n (c :: r)) (skipn n (c :: r)) l).
Proof.
  intros Hn. cbn [fd_write]. rewrite Nat.min_l by lia.
  destruct n as [|k]; [lia|].
  destruct (fd_write (file ++ firstn (S k) (c :: r)) (skipn (S k) (c :: r)) l). reflexivity.
Qed.

Lemma metadata_json_cons (tok : string) :
  metadata_json tok = "{"%char :: tl (metadata_json tok).
Proof. reflexivity. Qed.

End DiskFacts.
Import DiskFacts.

(** Claim C5 (counterexample): while [writeMetadata] replaces the
    checkpoint for token [t1] with the one for [t2], in a run where every
    system call succeeds, the metadata file is at one point empty (right
    after [os.WriteFile] opens it with [O_TRUNC]). That content is neither
    the old nor the new complete content. *)
Lemma writeMetadata_torn_counterexample :
  In (Some []) (fst (writeMetadata_states (Some (metadata_json "t1")) "t2" true [WWrote 100])) /\
  snd (writeMetadata_states (Some (metadata_json "t1")) "t2" true [WWrote 100]) = true /\
  Some [] <> Some (metadata_json "t1") /\
  Some [] <> Some (metadata_json "t2").
Proof.
  split; [|split; [|split; discriminate]].
  - vm_compute. right. left. reflexivity.
  - vm_compute. reflexivity.
Qed.

(** Claim C5 (amended): checkpoint save writes the metadata file in place
    with a single [os.WriteFile] and no rename: a run of [writeMetadata]
    appends at most one write, to the metadata path itself. [os.WriteFile]
    truncates the file and then writes the new bytes, so a concurrent or
    crash-interrupted load sees the old content or a prefix of the new
    bytes; once the file is opened, the empty file is among them, and any
    prefix can be seen for some answers of the kernel. When the write
    loop writes every byte, the last content is the new complete content,
    and the complete content is only seen in that case; when it stops
    early, the file is left holding a proper prefix. *)
Theorem writeMetadata_in_place roomPath tok old opened answers s :
  (forall w r w', writeMetadata roomPath tok w = (r, w') ->
     w_trace w' = w_trace w ++ [AWrite (roomPath ++ [metadataFilename]) (CMeta tok)] \/
     w_trace w' = w_trace w) /\
  (In s (fst (writeMetadata_states old tok opened answers)) ->
   s = old \/ exists k, (k <= length (metadata_json tok))%nat /\ s = Some (firstn k (metadata_json tok))) /\
  (opened = true -> In (Some []) (fst (writeMetadata_states old tok opened answers))) /\
  (forall k, (k <= length (metadata_json tok))%nat -> exists answers',
     In (Some (firstn k (metadata_json tok))) (fst (writeMetadata_states old tok true answers'))) /\
  (snd (writeMetadata_states old tok opened answers) = true ->
     last (fst (writeMetadata_states old tok opened answers)) = Some (Some (metadata_json tok))) /\
  (opened = true -> snd (writeMetadata_states old tok opened answers) = false ->
     exists k, (k < length (metadata_json tok))%nat /\
       last (fst (writeMetadata_states old tok opened answers)) = Some (Some (firstn k (metadata_json tok)))) /\
  (In (Some (metadata_json tok)) (tl (fst (writeMetadata_states old tok opened answers))) ->
     snd (writeMetadata_states old tok opened answers) = true).
Proof.
  split.
  { intros w r w' H. unfold writeMetadata in H.
    destruct (writeFile_result _ _ _ _ _ H) as [[_ T]|T]; auto. }
  assert (Hpre : forall k, (k <= length (metadata_json tok))%nat -> exists answers',
     In (Some (firstn k (metadata_json tok))) (fst (writeMetadata_states old tok true answers'))).
  { intros k Hk. exists [WWrote k; WFail]. unfold writeMetadata_states, osWriteFile.
    rewrite metadata_json_cons in *. destruct k as [|k].
    - destruct (fd_write [] _ _). right. left. reflexivity.
    - pose proof (fd_write_first [] "{"%char (tl (metadata_json tok)) (S k) [WFail]) as F.
      destruct (fd_write [] ("{"%char :: tl (metadata_json tok)) [WWrote (S k); WFail]) as [sts ok].
      cbn [fst] in F |- *. rewrite F by lia. right. right. left. reflexivity. }
  unfold writeMetadata_states, osWriteFile in *.
  destruct opened.
  2: { cbn [fst snd tl In].
       split; [intros [<-|[]]; left; reflexivity|]. split; [intros H; discriminate H|].
       split; [exact Hpre|]. split; [intros H; discriminate H|].
       split; [intros H; discriminate H|]. intros []. }
  pose proof (fd_write_spec answers [] (metadata_json tok)) as Hs.
  destruct (fd_write [] (metadata_json tok) answers) as [sts ok].
  destruct Hs as (A & B & C & D). cbn [app] in A, B, C, D. cbn [fst snd tl].
  repeat split.
  - intros [<-|[<-|Hs]]; [left; reflexivity| |].
    + right. exists O. split; [lia|reflexivity].
    + apply in_map_iff in Hs. destruct Hs as (x & <- & Hx).
      destruct (A x Hx) as (k & Hk & ->). right. exists k. split; [lia|reflexivity].
  - intros _. right. left. reflexivity.
  - exact Hpre.
  - intros Hok. change (last (Some [] :: map Some sts) = Some (Some (metadata_json tok))).
    rewrite (last_cons_map Some sts []), (B Hok). reflexivity.
  - intros _ Hok. destruct (C Hok) as (k & Hk & L). exists k. split; [exact Hk|].
    change (last (Some [] :: map Some sts) = Some (Some (firstn k (metadata_json tok)))).
    rewrite (last_cons_map Some sts []), L. reflexivity.
  - intros [He|Hs].
    + rewrite metadata_json_cons in He. discriminate.
    + apply in_map_iff in Hs. destruct Hs as (x & Hx & Hin). injection Hx as ->. apply D, Hin.
Qed.

Module HandshakeFacts.
Import Handshake.

Lemma whoami_loop_gave_up M whoami e r f :
  whoami r = Some e -> isRetryable e = true -> 0 < M -> M - 1 <= r ->
  whoami_loop (S f) M whoami r = ([HWhoami r], HGaveUp e).
Proof.
  intros Hw He HM Hr. simpl. rewrite Hw, He.
  replace ((0 <? M) && (M - 1 <=? r)) with true; [reflexivity|].
  symmetry. apply andb_true_iff. split; [apply Z.ltb_lt|apply Z.leb_le]; lia.
Qed.

Lemma whoami_loop_retry M whoami e r f :
  whoami r = Some e -> isRetryable e = true -> ~ (0 < M /\ M - 1 <= r) ->
  whoami_loop (S f) M whoami r =
    let '(tr, o) := whoami_loop f M whoami (r + 1) in
    (HWhoami r :: HSleep matrixConnectionRetryDelay :: tr, o).
Proof.
  intros Hw He HM. simpl. rewrite Hw, He.
  replace ((0 <? M) && (M - 1 <=? r)) with false; [reflexivity|].
  symmetry. apply not_true_is_false. rewrite andb_true_iff, Z.ltb_lt, Z.leb_le. exact HM.
Qed.

Lemma whoami_loop_give_up_trace M whoami :
  0 < M -> (forall i, 0 <= i < M -> exists e, whoami i = Some e /\ isRetryable e = true) ->
  forall k fuel r, (k < fuel)%nat -> 0 <= r -> r + Z.of_nat k = M - 1 ->
  exists e, whoami (M - 1) = Some e /\
    whoami_loop fuel M whoami r = (give_up_trace r k, HGaveUp e).
Proof.
  intros HM Hw k. induction k as [|k IH]; intros [|f] r Hf H0 Hr; try lia.
  - destruct (Hw r) as (e & He & Hre); [lia|]. exists e. split.
    + replace (M - 1) with r by lia. exact He.
    + apply whoami_loop_gave_up; auto; lia.
  - destruct (Hw r) as (e & He & Hre); [lia|].
    rewrite (whoami_loop_retry M whoami e r f He Hre) by lia.
    destruct (IH f (r + 1)) as (e' & He' & L); [lia|lia|lia|].
    exists e'. split; [exact He'|]. rewrite L. reflexivity.
Qed.

Lemma give_up_trace_counts r k :
  length (List.filter is_attempt (give_up_trace r k)) = S k /\
  length (List.filter is_sleep (give_up_trace r k)) = k.
Proof.
  revert r. induction k as [|k IH]; intros r; [split; reflexivity|].
  simpl. destruct (IH (r + 1)) as [A B]. rewrite A, B. split; reflexivity.
Qed.

End HandshakeFacts.
Import Handshake HandshakeFacts.

(** Claim C7 (counterexample): with the maximum retry count set to 1 and
    a server answering [503], the check gives up after the first attempt,
    while the retry counter is still 0 and no retry has been made. With
    the maximum set to 2, exactly one retry is made. *)
Lemma initializeMatrixClient_max_retries_counterexample :
  whoami_loop 10 1 (fun _ => Some e503) 0 = ([HWhoami 0], HGaveUp e503) /\
  whoami_loop 10 2 (fun _ => Some e503) 0 =
    ([HWhoami 0; HSleep matrixConnectionRetryDelay; HWhoami 1], HGaveUp e503).
Proof. split; vm_compute; reflexivity. Qed.

(** Claim C7 (amended): an error with an HTTP response of status 5xx or
    429 is retryable; any other 4xx response is fatal; an error with no
    HTTP response and no network cause is fatal. A fatal failure ends the
    loop at once. After a retryable failure, if [MaxWhoamiRetries] is set
    ([> 0]) and the retry counter has reached [MaxWhoamiRetries - 1], the
    call fails with a terminal error. Otherwise it sleeps 10 seconds and
    retries with the counter incremented. So a set maximum [M] allows [M]
    attempts and [M - 1] retries in total: when each of the [M] attempts
    fails with a retryable error (possibly a different one each time), the
    loop makes exactly [M] calls and [M - 1] sleeps, then gives up with the
    error of the last attempt. *)
Theorem initializeMatrixClient_retry_policy M whoami fuel :
  0 < M -> (forall i, 0 <= i < M -> exists e, whoami i = Some e /\ isRetryable e = true) ->
  (Z.to_nat M <= fuel)%nat ->
  ((forall cls c, 500 <= c \/ c = 429 -> isRetryable (mkWErr cls (Some c)) = true) /\
   (forall cls c, 400 <= c < 500 -> c <> 429 -> isRetryable (mkWErr cls (Some c)) = false) /\
   isRetryable (mkWErr NOther None) = false) /\
  (forall M' w r e' f, w r = Some e' -> isRetryable e' = false ->
     whoami_loop (S f) M' w r = ([HWhoami r], HFatal e')) /\
  (forall M' w r e' f, w r = Some e' -> isRetryable e' = true -> 0 < M' -> M' - 1 <= r ->
     whoami_loop (S f) M' w r = ([HWhoami r], HGaveUp e')) /\
  (forall M' w r e' f, w r = Some e' -> isRetryable e' = true -> ~ (0 < M' /\ M' - 1 <= r) ->
     whoami_loop (S f) M' w r =
       let '(tr, o) := whoami_loop f M' w (r + 1) in
       (HWhoami r :: HSleep matrixConnectionRetryDelay :: tr, o)) /\
  matrixConnectionRetryDelay = 10 * 1000 /\
  (exists e, whoami (M - 1) = Some e /\
     whoami_loop fuel M whoami 0 = (give_up_trace 0 (Z.to_nat (M - 1)), HGaveUp e)) /\
  length (List.filter is_attempt (give_up_trace 0 (Z.to_nat (M - 1)))) = Z.to_nat M /\
  length (List.filter is_sleep (give_up_trace 0 (Z.to_nat (M - 1)))) = Z.to_nat (M - 1).
Proof.
  intros HM Hw Hf.
  destruct (give_up_trace_counts 0 (Z.to_nat (M - 1))) as [A B].
  split; [split; [|split]|split; [|split; [|split; [|split; [|split; [|split]]]]]].
  - intros cls c Hc. unfold isRetryable. cbn [we_status].
    destruct Hc as [Hc | ->]; [|reflexivity].
    replace ((400 <=? c) && (c <? 500) && negb (c =? 429)) with false.
    + replace ((500 <=? c) || (c =? 429)) with true; [reflexivity|].
      symmetry. apply orb_true_iff. left. apply Z.leb_le. lia.
    + symmetry. apply andb_false_iff. left. apply andb_false_iff. right. apply Z.ltb_ge. lia.
  - intros cls c Hc H429. unfold isRetryable. cbn [we_status].
    replace ((400 <=? c) && (c <? 500) && negb (c =? 429)) with true; [reflexivity|].
    symmetry. rewrite !andb_true_iff, negb_true_iff, Z.leb_le, Z.ltb_lt, Z.eqb_neq. lia.
  - reflexivity.
  - intros M' w r e' f Hw' He'. simpl. rewrite Hw', He'. reflexivity.
  - intros M' w r e' f Hw' He' HM' Hr. apply whoami_loop_gave_up; assumption.
  - intros M' w r e' f Hw' He' HM'. apply whoami_loop_retry with e'; assumption.
  - reflexivity.
  - apply whoami_loop_give_up_trace; auto; lia.
  - rewrite A. lia.
  - exact B.
Qed.

Lemma initializeMatrixClient_retry_policy_witness :
  exists e, whoami_503_then_429 (3 - 1) = Some e /\
    whoami_loop 3 3 whoami_503_then_429 0 = (give_up_trace 0 (Z.to_nat (3 - 1)), HGaveUp e).
Proof.
  destruct (initializeMatrixClient_retry_policy 3 whoami_503_then_429 3)
    as (_ & _ & _ & _ & _ & L & _).
  - lia.
  - intros i _. unfold whoami_503_then_429. destruct (i =? 0); eexists; split; reflexivity.
  - vm_compute. lia.
  - exact L.
Defined.

Module ConfigFacts.
Import Config.

Lemma set_if_empty_idem a b : set_if_empty (set_if_empty a b) b = set_if_empty a b.
Proof.
  unfold set_if_empty. destruct (String.eqb a EmptyString) eqn:E; [|rewrite E; reflexivity].
  destruct (String.eqb b EmptyString) eqn:F; [apply String.eqb_eq in F; subst|]; reflexivity.
Qed.

Lemma merge_creds_idem cli c : merge_creds (merge_creds cli c) c = merge_creds cli c.
Proof. destruct c; [|reflexivity]. unfold merge_creds. cbn. rewrite !set_if_empty_idem. reflexivity. Qed.

Lemma missing_credentials_nil cli :
  missing_credentials cli = [] <->
  Server cli <> EmptyString /\ User cli <> EmptyString /\ Token cli <> EmptyString.
Proof.
  unfold missing_credentials.
  destruct (String.eqb (Server cli) EmptyString) eqn:E1;
  destruct (String.eqb (User cli) EmptyString) eqn:E2;
  destruct (String.eqb (Token cli) EmptyString) eqn:E3;
  rewrite ?String.eqb_eq, ?String.eqb_neq in *; simpl; split; intuition congruence.
Qed.

End ConfigFacts.
Import Config ConfigFacts RoomName.

(** Flags take precedence over the configuration file: after
    [mergeAndValidateConfig] each of [Server], [User], [Token] and
    [DeviceID] keeps its command-line value when that is non-empty and
    takes the file's value otherwise. Without a file the [CLI] is left as
    it is, the other fields are never changed, and merging the same file a
    second time changes nothing. *)
Theorem mergeAndValidateConfig_flags_win cli f :
  let cli' := fst (mergeAndValidateConfig cli (Some f)) in
  Server cli' = (if String.eqb (Server cli) EmptyString then cf_Server f else Server cli) /\
  User cli' = (if String.eqb (User cli) EmptyString then cf_User f else User cli) /\
  Token cli' = (if String.eqb (Token cli) EmptyString then cf_Token f else Token cli) /\
  DeviceID cli' = (if String.eqb (DeviceID cli) EmptyString then cf_DeviceID f else DeviceID cli) /\
  ConfigFile cli' = ConfigFile cli /\ FetchDelay cli' = FetchDelay cli /\
  BackupDir cli' = BackupDir cli /\ Debug cli' = Debug cli /\
  LogJSON cli' = LogJSON cli /\ Color cli' = Color cli /\
  fst (mergeAndValidateConfig cli None) = cli /\
  mergeAndValidateConfig cli' (Some f) = mergeAndValidateConfig cli (Some f).
Proof.
  assert (Hf : forall c, fst (mergeAndValidateConfig cli c) = merge_creds cli c).
  { intros c. unfold mergeAndValidateConfig. destruct (missing_credentials _); reflexivity. }
  cbv zeta. rewrite !Hf. repeat split; try reflexivity.
  unfold mergeAndValidateConfig. rewrite merge_creds_idem. reflexivity.
Qed.

(** [mergeAndValidateConfig] succeeds exactly when the merged [Server],
    [User] and [Token] are all non-empty; [DeviceID] is never required. *)
Theorem mergeAndValidateConfig_validation cli creds :
  snd (mergeAndValidateConfig cli creds) = None <->
  let cli' := fst (mergeAndValidateConfig cli creds) in
  Server cli' <> EmptyString /\ User cli' <> EmptyString /\ Token cli' <> EmptyString.
Proof.
  cbv zeta. unfold mergeAndValidateConfig. rewrite <- missing_credentials_nil.
  destruct (missing_credentials (merge_creds cli creds)) eqn:E; simpl; rewrite E; split; congruence.
Qed.

(** [loadAndValidateConfig]: with no configuration path, or a path to a
    missing file, the result is that of [mergeAndValidateConfig] on the
    flags alone; a decoded file is merged under the flags; a file that
    cannot be read gives the read error and a file that cannot be decoded
    the parse error, both for the configuration path and returned before
    any merge or validation, with the [CLI] unchanged. *)
Theorem loadAndValidateConfig_cases readConfig unmarshal cli :
  (ConfigFile cli = EmptyString \/ readConfig (ConfigFile cli) = FRNotExist ->
     loadAndValidateConfig readConfig unmarshal cli = mergeAndValidateConfig cli None) /\
  (forall b f, ConfigFile cli <> EmptyString -> readConfig (ConfigFile cli) = FRData b ->
     unmarshal b = Some f ->
     loadAndValidateConfig readConfig unmarshal cli = mergeAndValidateConfig cli (Some f)) /\
  (ConfigFile cli <> EmptyString -> readConfig (ConfigFile cli) = FRError ->
     loadAndValidateConfig readConfig unmarshal cli = (cli, Some (CfgRead (ConfigFile cli)))) /\
  (forall b, ConfigFile cli <> EmptyString -> readConfig (ConfigFile cli) = FRData b ->
     unmarshal b = None ->
     loadAndValidateConfig readConfig unmarshal cli = (cli, Some (CfgParse (ConfigFile cli)))).
Proof.
  unfold loadAndValidateConfig, loadConfigFromFile. split; [|split; [|split]].
  - intros [E|E].
    + rewrite E. reflexivity.
    + destruct (String.eqb (ConfigFile cli) EmptyString); [reflexivity|]. rewrite E. reflexivity.
  - intros b f E R U. apply String.eqb_neq in E. rewrite E, R, U. reflexivity.
  - intros E R. apply String.eqb_neq in E. rewrite E, R. reflexivity.
  - intros b E R U. apply String.eqb_neq in E. rewrite E, R, U. reflexivity.
Qed.

(** [getRoomName] returns the canonical alias when it was fetched and is
    non-empty. Otherwise it returns the room name when that was fetched
    and is non-empty, and the room id when neither is usable. The returned
    name is always one of the three, and it is non-empty whenever the room
    id is. *)
Theorem getRoomName_fallback aliasResp nameResp roomID :
  let r := getRoomName aliasResp nameResp roomID in
  (forall alias, aliasResp = SOk alias -> alias <> EmptyString -> r = alias) /\
  (forall name, aliasResp = SFail \/ aliasResp = SOk EmptyString ->
     nameResp = SOk name -> name <> EmptyString -> r = name) /\
  (aliasResp = SFail \/ aliasResp = SOk EmptyString ->
     nameResp = SFail \/ nameResp = SOk EmptyString -> r = roomID) /\
  (r = roomID \/ aliasResp = SOk r \/ nameResp = SOk r) /\
  (roomID <> EmptyString -> r <> EmptyString).
Proof.
  unfold getRoomName.
  destruct nameResp as [name|];
  [destruct (String.eqb name EmptyString) eqn:En; simpl;
   [apply String.eqb_eq in En|apply String.eqb_neq in En]|];
  destruct aliasResp as [alias|];
  try (destruct (String.eqb alias EmptyString) eqn:Ea; simpl;
       [apply String.eqb_eq in Ea|apply String.eqb_neq in Ea]);
  repeat split; intros;
    repeat match goal with H : _ \/ _ |- _ => destruct H end; try congruence; auto.
Qed.

Module MetaFacts.
Import Store Backup.

Lemma write_fs_ok p c fs fs' : write_fs p c fs = Ok fs' -> fs' = <[p := EFile c]> fs.
Proof.
  unfold write_fs. destruct (fs !! p) as [[c0|]|]; try discriminate;
  destruct (removelast p) as [|x d]; try (intros [= <-]; reflexivity);
  destruct (fs !! (x :: d)) as [[c1|]|]; try discriminate; intros [= <-]; reflexivity.
Qed.

Lemma readMetadata_written rp tok w :
  w_fs w !! (rp ++ [metadataFilename]) = Some (EFile (CMeta tok)) -> readMetadata rp w = (Ok tok, w).
Proof.
  intros E. unfold readMetadata, try, readFile, bind, get_fs, ret. cbn. rewrite E. reflexivity.
Qed.

Lemma missing_error_room fs rp n :
  (forall q, In q (prefixes rp) -> fs !! q = Some EDir) -> missing_error fs (rp ++ [n]) = ENOENT (rp ++ [n]).
Proof.
  intros Hp. unfold missing_error. rewrite removelast_last.
  replace (existsb (is_file fs) (prefixes rp)) with false; [reflexivity|].
  symmetry. apply not_true_is_false. intros Hx. apply existsb_exists in Hx as (q & Hq & Hf).
  unfold is_file in Hf. rewrite (Hp q Hq) in Hf. discriminate.
Qed.

End MetaFacts.
Import MetaFacts.



(** [readMetadata] never changes the file system or the trace. A missing
    metadata file in an existing room directory gives the empty token
    (start of history); a metadata file that does not decode as
    [Metadata] gives a decoding error; a directory in its place gives
    [EISDIR]. *)
Theorem readMetadata_cases roomPath w :
  snd (readMetadata roomPath w) = w /\
  (w_fs w !! (roomPath ++ [metadataFilename]) = None ->
   (forall q, In q (prefixes roomPath) -> w_fs w !! q = Some EDir) ->
   fst (readMetadata roomPath w) = Ok EmptyString) /\
  (forall c, w_fs w !! (roomPath ++ [metadataFilename]) = Some (EFile c) ->
   (forall t, c <> CMeta t) ->
   fst (readMetadata roomPath w) = Err (EDecode (roomPath ++ [metadataFilename]))) /\
  (w_fs w !! (roomPath ++ [metadataFilename]) = Some EDir ->
   fst (readMetadata roomPath w) = Err (EISDIR (roomPath ++ [metadataFilename]))).
Proof.
  unfold readMetadata, try, readFile, bind, get_fs, ret, fail. cbn.
  destruct (w_fs w !! (roomPath ++ [metadataFilename])) as [[c|]|] eqn:E.
  - destruct c as [l|t|b]; cbn; repeat split; intros; try discriminate; try reflexivity.
    + exfalso. match goal with H : forall t, _ |- _ => apply (H t) end.
      match goal with H : Some _ = Some _ |- _ => injection H as <- end. reflexivity.
  - cbn. repeat split; intros; discriminate.
  - split; [destruct (missing_error (w_fs w) (roomPath ++ [metadataFilename])); reflexivity|]. split.
    + intros _ Hp. rewrite (missing_error_room _ _ _ Hp). reflexivity.
    + split; intros; discriminate.
Qed.

(** [updateMetadataToken] never fails: the error of the write is
    dropped. An unchanged token leaves everything as it is. For a changed
    token, the only action performed is at most one write of the metadata
    file with the new token, and when that write is performed, reading the
    metadata back returns the new token. *)
Theorem updateMetadataToken_effect roomPath old newToken w :
  let res := updateMetadataToken roomPath old newToken w in
  fst res = Ok tt /\
  (newToken = old -> snd res = w) /\
  (w_trace (snd res) = w_trace w ++ [AWrite (roomPath ++ [metadataFilename]) (CMeta newToken)] \/
   w_trace (snd res) = w_trace w) /\
  (w_trace (snd res) = w_trace w ++ [AWrite (roomPath ++ [metadataFilename]) (CMeta newToken)] ->
   readMetadata roomPath (snd res) = (Ok newToken, snd res)).
Proof.
  cbv zeta. unfold updateMetadataToken.
  assert (Hne : forall a, w_trace w <> w_trace w ++ [a]).
  { intros a Ht. apply (f_equal (@length _)) in Ht. rewrite length_app in Ht. simpl in Ht. lia. }
  destruct (String.eqb newToken old) eqn:E.
  - apply String.eqb_eq in E. split; [reflexivity|]. split; [reflexivity|].
    split; [right; reflexivity|]. intros Ht. exfalso. exact (Hne _ Ht).
  - apply String.eqb_neq in E.
    unfold bind, try, writeMetadata, writeFile, get_fs, put_fs, emit, ret, fail.
    cbn -[write_fs].
    destruct (write_fs (roomPath ++ [metadataFilename]) (CMeta newToken) (w_fs w)) as [fs'|e] eqn:W.
    + split; [reflexivity|]. split; [contradiction|]. split; [left; reflexivity|]. intros _.
      apply readMetadata_written. cbn. rewrite (write_fs_ok _ _ _ _ W). apply lookup_insert_eq.
    + split; [reflexivity|]. split; [contradiction|]. split; [right; reflexivity|].
      intros Ht. exfalso. exact (Hne _ Ht).
Qed.

Module ProcessFacts.
Import Store Backup View TraceFacts MergeFacts EventFacts.

Lemma only_mapM_in {X} Q (f : X -> M unit) l :
  (forall x, In x l -> only_actions Q (f x)) -> only_actions Q (mapM_ f l).
Proof.
  induction l as [|x l IH]; intros Hf; simpl; [apply only_ret|].
  apply only_bind; [apply Hf; left; reflexivity|intros _; apply IH; intros y Hy; apply Hf; right; exact Hy].
Qed.

Lemma only_processDay mo rp d daily :
  only_actions (fun a => exists c, a = AWrite (rp ++ [d; dataFilename]) c) (processDay mo rp (d, daily)).
Proof.
  unfold processDay.
  apply only_bind; [apply only_mkdirAll|intros _].
  apply only_bind; [apply only_readExisting|intros ex].
  apply only_bind; [apply only_tick|intros n'].
  apply only_writeFile. eexists. by rewrite <- app_assoc.
Qed.

Lemma only_mono {A} (Q Q' : action -> Prop) (m : M A) :
  (forall a, Q a -> Q' a) -> only_actions Q m -> only_actions Q' m.
Proof.
  intros HQ Hm w r w' H. destruct (Hm _ _ _ H) as (ws & T & F).
  exists ws. split; [exact T|]. eapply Forall_impl; [exact F|exact HQ].
Qed.

Lemma range_dates_key mo n evs d daily :
  MapOrder_ok mo -> In (d, daily) (range_dates mo n (map_to_list (group_by_date evs))) ->
  daily = List.filter (same_day d) evs /\ daily <> [].
Proof.
  intros Hmo Hin. eapply Permutation_in in Hin; [|apply (proj1 Hmo)].
  apply list_elem_of_In, elem_of_map_to_list in Hin.
  rewrite group_by_date_lookup in Hin.
  destruct (List.filter (same_day d) evs); [discriminate|]. injection Hin as <-. split; congruence.
Qed.

Lemma world1_room : room_ok room0 (w_fs world1).
Proof.
  split; [|split].
  - intros q Hq. simpl in Hq. destruct Hq as [<-|[<-|[]]]; reflexivity.
  - intros d c. simpl. rewrite !lookup_insert_Some, lookup_empty. intros H.
    destruct H as [[E _]|[_ [[E [=]]|[_ [[E _]|[_ [[E _]|[_ [=]]]]]]]]];
      apply (f_equal length) in E; simpl in E; lia.
  - intros d. simpl. rewrite !lookup_insert_Some, lookup_empty. intros H.
    destruct H as [[_ [=]]|[_ [[E _]|[_ [[E _]|[_ [[E _]|[_ [=]]]]]]]]];
      apply (f_equal length) in E; simpl in E; lia.
Qed.

Lemma insert_stable_filter_ts t e l :
  List.filter (fun x => ev_ts x =? t) (insert_stable e l) =
  List.filter (fun x => ev_ts x =? t) (e :: l).
Proof.
  induction l as [|x l IH]; [reflexivity|]. simpl.
  destruct (ev_ts e <=? ev_ts x) eqn:Hle; [reflexivity|].
  apply Z.leb_gt in Hle. simpl. rewrite IH. simpl.
  destruct (ev_ts x =? t) eqn:Hx, (ev_ts e =? t) eqn:He; try reflexivity.
  apply Z.eqb_eq in Hx, He. lia.
Qed.

End ProcessFacts.
Import FsFacts TraceFacts ProcessFacts Scenarios.

(** A batch with no events changes nothing: [processEvents] creates no
    directory and writes no file (the loop over the empty date map does
    not run). *)
Theorem processEvents_empty_batch mo rp w :
  MapOrder_ok mo ->
  processEvents mo rp [] w = (Ok tt, mkWorld (w_fs w) (w_trace w) (S (w_tick w))).
Proof.
  intros [Hd _]. unfold processEvents, group_by_date. cbn [fold_left].
  rewrite map_to_list_empty.
  pose proof (Hd (w_tick w) []) as P. apply Permutation_sym, Permutation_nil in P.
  unfold bind, tick. cbn. rewrite P. reflexivity.
Qed.

Lemma processEvents_empty_batch_witness :
  processEvents listed_order room0 [] world0 =
    (Ok tt, mkWorld (w_fs world0) (w_trace world0) (S (w_tick world0))).
Proof. apply processEvents_empty_batch. apply listed_order_ok. Defined.

(** Whatever its outcome, [processEvents] writes only day files of the
    batch's dates: every action it performs is a write of
    [roomPath/<date>/data.json] where [<date>] is the UTC date of some
    event of the batch. *)
Theorem processEvents_writes_batch_days mo rp evs :
  MapOrder_ok mo ->
  only_actions (fun a => exists e c, In e evs /\ a = AWrite (rp ++ [dateOf e; dataFilename]) c)
    (processEvents mo rp evs).
Proof.
  intros Hmo. unfold processEvents. apply only_bind; [apply only_tick|intros n].
  apply only_mapM_in. intros [d daily] Hx.
  destruct (range_dates_key mo n evs d daily Hmo Hx) as [Hdaily Hne].
  destruct daily as [|e r]; [congruence|].
  assert (He : In e (List.filter (same_day d) evs)) by (rewrite <- Hdaily; left; reflexivity).
  apply List.filter_In in He as [He Hs]. unfold same_day in Hs. apply String.eqb_eq in Hs.
  eapply only_mono; [|apply only_processDay].
  intros a [c ->]. exists e, c. rewrite Hs. split; [exact He|reflexivity].
Qed.

Lemma processEvents_writes_batch_days_witness :
  only_actions (fun a => exists e c, In e batchA /\ a = AWrite (room0 ++ [dateOf e; dataFilename]) c)
    (processEvents listed_order room0 batchA).
Proof. apply processEvents_writes_batch_days. apply listed_order_ok. Defined.



(** A day file that does not decode as an event array (raw bytes or a
    metadata object) is overwritten:
    after [processEvents] with a batch holding events of that date, the
    day file holds exactly the batch's events of that date, one per id
    (the last copy of each), sorted by timestamp; the old bytes are lost. *)
Theorem processEvents_overwrites_undecodable_day mo rp evs w d c :
  MapOrder_ok mo -> room_ok rp (w_fs w) ->
  w_fs w !! (rp ++ [d; dataFilename]) = Some (EFile c) -> (forall l, c <> CEvents l) ->
  List.filter (same_day d) evs <> [] ->
  exists w', processEvents mo rp evs w = (Ok tt, w') /\
    Permutation (shard rp (w_fs w') d)
      (map snd (map_to_list (fold_left ins (List.filter (same_day d) evs) ∅))) /\
    Sorted ts_le (shard rp (w_fs w') d).
Proof.
  intros Hmo Hok Hraw Hc Hne.
  destruct (processEvents_room mo rp evs w Hmo Hok) as (w' & Hp & _ & Hd).
  exists w'. split; [exact Hp|].
  destruct (Hd d) as [[Hf _]|(L & HL & Hs)]; [contradiction|].
  assert (Hsh : shard rp (w_fs w) d = []).
  { unfold shard. rewrite Hraw. destruct c as [l| |]; [exfalso; exact (Hc l eq_refl)|reflexivity|reflexivity]. }
  rewrite Hsh in HL. simpl in HL. rewrite Hs. split; [|apply sliceStable_sorted].
  rewrite sliceStable_perm. apply Permutation_map, HL.
Qed.

Lemma processEvents_overwrites_undecodable_day_witness :
  exists w', processEvents listed_order room0 batchC world_corrupt = (Ok tt, w') /\
    Permutation (shard room0 (w_fs w') "1970-01-01")
      (map snd (map_to_list (fold_left ins (List.filter (same_day "1970-01-01") batchC) ∅))) /\
    Sorted ts_le (shard room0 (w_fs w') "1970-01-01").
Proof.
  apply (processEvents_overwrites_undecodable_day listed_order room0 batchC world_corrupt
           "1970-01-01" (CRaw (B "{oops"))).
  - apply listed_order_ok.
  - apply (room_ok_write room0 "1970-01-01"), world1_room.
  - reflexivity.
  - intros l. discriminate.
  - vm_compute. discriminate.
Defined.

(** [sort.SliceStable] on timestamps: the result is sorted, holds the same
    events, and events with equal timestamps keep their input order. *)
Theorem sliceStable_stable l :
  Sorted ts_le (sliceStable l) /\ Permutation (sliceStable l) l /\
  forall t, List.filter (fun x => ev_ts x =? t) (sliceStable l) =
            List.filter (fun x => ev_ts x =? t) l.
Proof.
  split; [apply sliceStable_sorted|]. split; [apply sliceStable_perm|].
  intros t. induction l as [|e l IH]; [reflexivity|].
  unfold sliceStable. cbn [fold_right]. rewrite insert_stable_filter_ts. simpl.
  fold (sliceStable l). rewrite IH. reflexivity.
Qed.

Lemma chain_cons {T} (P : T -> T -> Prop) (x y : T) (l : list T) :
  P x y -> (forall l1 a b l2, y :: l = l1 ++ a :: b :: l2 -> P a b) ->
  forall l1 a b l2, x :: y :: l = l1 ++ a :: b :: l2 -> P a b.
Proof.
  intros Hxy Hrest [|z l1] a b l2 E.
  - injection E as -> -> _. exact Hxy.
  - injection E as _ E. exact (Hrest _ _ _ _ E).
Qed.

Lemma chain_single {T} (P : T -> T -> Prop) (x : T) :
  forall l1 a b l2, [x] = l1 ++ a :: b :: l2 -> P a b.
Proof.
  intros [|z [|u l1]] a b l2 E; simpl in E; inversion E.
Qed.

(** A fetch loop that ends normally (an empty chunk, or an end token equal
    to the one requested) has requested a chain of tokens starting at
    [currentToken] and ending at the returned token: each request after
    the first asks for the end token of the previous response, whose
    chunk was non-empty and whose end token differed from the token it
    was requested with. The returned count is [totalFetched] plus the
    sizes of the chunks received. *)
Theorem fetch_loop_token_chain mo remote fuel rp cur total w t n w' :
  fetch_loop mo remote fuel rp cur total w = (Ok (t, n, None), w') ->
  exists ts ws, w_trace w' = w_trace w ++ ws /\ omap fetched ws = cur :: ts /\
    (forall l1 a b l2, cur :: ts = l1 ++ a :: b :: l2 ->
       exists c, remote a = Some (c, b) /\ c <> [] /\ a <> b) /\
    last (cur :: ts) = Some t /\
    (exists c nxt, remote t = Some (c, nxt) /\ (c = [] \/ t = nxt)) /\
    n = (total + list_sum (map (fun a => match remote a with
                                          | Some (c, _) => length c
                                          | None => O end) (cur :: ts)))%nat.
Proof.
  revert cur total w w'. induction fuel as [|f IH]; intros cur total w w' H.
  - simpl in H. discriminate.
  - simpl in H. unfold bind at 1, emit at 1 in H.
    set (w1 := mkWorld (w_fs w) (w_trace w ++ [AFetch cur]) (w_tick w)) in H.
    destruct (remote cur) as [[[|x xs] nxt]|] eqn:Er.
    + injection H as <- <- <-. exists [], [AFetch cur]. split; [reflexivity|].
      split; [reflexivity|]. split; [apply chain_single|]. split; [reflexivity|].
      split; [exists [], nxt; auto|]. simpl. rewrite Er. simpl. lia.
    + unfold bind at 1, try at 1 in H.
      destruct (processEvents mo rp (x :: xs) w1) as [r1 w2] eqn:Hp.
      destruct (only_processEvents mo rp (x :: xs) _ _ _ Hp) as (ws2 & T2 & F2).
      pose proof (omap_fetched_data rp ws2 F2) as O2.
      destruct r1 as [u|e]; [|discriminate].
      destruct (String.eqb_spec cur nxt) as [Heq|Hne].
      * injection H as <- <- <-. exists [], (AFetch cur :: ws2). rewrite T2. simpl.
        rewrite <- app_assoc. split; [reflexivity|].
        split.
        { simpl omap. exact (f_equal (cons cur) O2). }
        split; [apply chain_single|]. split; [reflexivity|].
        split; [exists (x :: xs), nxt; auto|]. simpl. rewrite Er. simpl. lia.
      * unfold bind at 1, emit at 1 in H.
        destruct (IH _ _ _ _ H) as (ts & ws3 & T3 & O3 & C3 & L3 & E3 & N3).
        exists (nxt :: ts), (AFetch cur :: ws2 ++ ASleep :: ws3).
        rewrite T3. simpl. rewrite T2. simpl. rewrite <- !app_assoc. split; [reflexivity|].
        split.
        { change (omap fetched (AFetch cur :: ws2 ++ ASleep :: ws3))
            with (cur :: omap fetched (ws2 ++ ASleep :: ws3)).
          rewrite omap_app, O2. change (cur :: [] ++ omap fetched ws3 = cur :: nxt :: ts).
          by rewrite O3. }
        split; [apply chain_cons; [exists (x :: xs); split; [exact Er|split; [discriminate|exact Hne]]|exact C3]|].
        split; [exact L3|]. split; [exact E3|].
        rewrite N3. cbn [map list_sum]. rewrite Er. simpl. lia.
    + discriminate.
Qed.

Lemma fetch_loop_token_chain_witness :
  exists ts ws,
    w_trace (snd (fetch_loop listed_order remote1 10 alice_room EmptyString 0 world_b)) =
      w_trace world_b ++ ws /\
    omap fetched ws = EmptyString :: ts /\ last (EmptyString :: ts) = Some "t2"%string.
Proof.
  destruct (fetch_loop_token_chain listed_order remote1 10 alice_room EmptyString 0 world_b
              "t2" 2 (snd (fetch_loop listed_order remote1 10 alice_room EmptyString 0 world_b)))
    as (ts & ws & T & O & _ & L & _).
  - vm_compute. reflexivity.
  - exists ts, ws. auto.
Defined.

Module MigrateFacts.
Import Sanitize DirKey Store Backup View TraceFacts MergeFacts.

Lemma only_readDir Q p : only_actions Q (readDir p).
Proof.
  unfold readDir. apply only_bind; [apply only_get_fs|intros fs].
  destruct (fs !! p) as [[c|]|]; [apply only_fail|apply only_ret|apply only_fail].
Qed.

Lemma only_collect_events Q o files : only_actions Q (collect_events o files).
Proof.
  induction files as [|[name kind] rest IH]; simpl; [apply only_ret|].
  apply only_bind; [|intros here; apply only_bind; [exact IH|intros acc; apply only_ret]].
  destruct kind as [c|]; [|apply only_ret].
  destruct (String.eqb name metadataFilename); [apply only_ret|].
  destruct (negb (has_suffix name ".json")); [apply only_ret|].
  apply only_bind; [apply only_try, only_readFile|intros r].
  destruct r as [[]|]; apply only_ret.
Qed.

Lemma only_removeAll (Q : action -> Prop) p : Q (ARemoveAll p) -> only_actions Q (removeAll p).
Proof.
  intros Hq. unfold removeAll. apply only_bind; [apply only_get_fs|intros fs].
  apply only_bind; [apply only_put_fs|intros _; by apply only_emit].
Qed.

Lemma only_processSingle mo bd old target :
  only_actions (fun a => data_write target a \/ a = ARemoveAll (bd ++ [old]))
    (processSingleOldDirectory mo bd old target).
Proof.
  unfold processSingleOldDirectory.
  apply only_bind; [apply only_readDir|intros files].
  apply only_bind; [apply only_collect_events|intros col].
  apply only_bind; [|intros _; apply only_removeAll; right; reflexivity].
  destruct col.1; [apply only_ret|].
  eapply only_mono; [|apply only_processEvents]. intros a Ha; left; exact Ha.
Qed.

Lemma only_merge_candidates mo bd roomID cur target entries :
  only_actions (fun a => data_write target a \/
      exists n, a = ARemoveAll (bd ++ [n]) /\
        is_candidate (list_ascii_of_string roomID) (list_ascii_of_string cur)
                     (list_ascii_of_string n) = true)
    (merge_candidates mo bd roomID cur target entries).
Proof.
  induction entries as [|[n kind] rest IH]; simpl; [apply only_ret|].
  apply only_bind; [|intros here; apply only_bind; [exact IH|intros; apply only_ret]].
  destruct kind as [c|]; [apply only_ret|].
  destruct (is_candidate _ _ _) eqn:Hc; [|apply only_ret].
  apply only_bind; [|intros r; destruct r; apply only_ret].
  apply only_try. eapply only_mono; [|apply only_processSingle].
  intros a [Ha| ->]; [left; exact Ha|right; exists n; auto].
Qed.

Lemma bytes_eqb_refl s : bytes_eqb s s = true.
Proof. by apply bytes_eqb_spec. Qed.

Lemma is_candidate_self r d : is_candidate r d d = false.
Proof.
  unfold is_candidate. destruct (extractRoomID d); [|reflexivity].
  rewrite bytes_eqb_refl, andb_false_r. reflexivity.
Qed.

Lemma strip_app p k r : strip p k = Some r -> k = p ++ r.
Proof.
  revert k. induction p as [|x p IH]; intros k H; simpl in H.
  - by injection H as ->.
  - destruct k as [|y k]; [discriminate|].
    destruct (String.eqb_spec x y) as [->|]; [|discriminate]. simpl. f_equal. by apply IH.
Qed.

Lemma readDir_dir p w :
  w_fs w !! p = Some EDir ->
  readDir p w = (Ok (merge_sort name_le (omap (child p) (map_to_list (w_fs w)))), w).
Proof. intros H. unfold readDir, bind, get_fs. simpl. rewrite H. reflexivity. Qed.

Lemma readDir_entry p fs n k :
  In (n, k) (merge_sort name_le (omap (child p) (map_to_list fs))) -> fs !! (p ++ [n]) = Some k.
Proof.
  intros H. apply list_elem_of_In in H. rewrite (merge_sort_Permutation name_le) in H.
  apply list_elem_of_omap in H as ([q e] & Hq & Hc).
  unfold child in Hc. simpl in Hc.
  destruct (strip p q) as [[|m [|]]|] eqn:Hs; try discriminate.
  injection Hc as <- <-. apply strip_app in Hs. subst q.
  by apply elem_of_map_to_list.
Qed.

Lemma readDir_notdir p w :
  w_fs w !! p <> Some EDir ->
  readDir p w = (Err (match w_fs w !! p with
                      | Some (EFile _) => ENOTDIR p
                      | _ => missing_error (w_fs w) p end), w).
Proof.
  intros H. unfold readDir, bind, get_fs. simpl.
  destruct (w_fs w !! p) as [[c|]|]; [reflexivity|congruence|reflexivity].
Qed.

Lemma merge_candidates_idle mo bd roomID cur target entries w :
  (forall n, In (n, EDir) entries ->
     is_candidate (list_ascii_of_string roomID) (list_ascii_of_string cur)
                  (list_ascii_of_string n) = false) ->
  merge_candidates mo bd roomID cur target entries w = (Ok [], w).
Proof.
  induction entries as [|[n kind] rest IH]; intros H; [reflexivity|]. simpl.
  assert (Hrest : merge_candidates mo bd roomID cur target rest w = (Ok [], w))
    by (apply IH; intros n' Hn'; apply H; right; exact Hn').
  destruct kind as [c|].
  - unfold bind at 1, ret at 1. rewrite (bind_ok _ _ _ _ _ Hrest). reflexivity.
  - rewrite (H n (or_introl eq_refl)). unfold bind at 1, ret at 1.
    rewrite (bind_ok _ _ _ _ _ Hrest). reflexivity.
Qed.

Lemma prefixes_removelast p : p <> [] -> prefixes p = prefixes (removelast p) ++ [p].
Proof.
  intros Hp. destruct (exists_last Hp) as (q & x & ->).
  rewrite removelast_last. apply prefixes_snoc.
Qed.

End MigrateFacts.
Import Sanitize DirKey MigrateFacts.

(** [mergeOldRoomData] only writes day files of the target room and
    removes directories [backupDir/<name>] whose name passes the candidate
    test (it carries the room's id and is not the current directory name);
    in particular it never removes the current room directory. *)
Theorem mergeOldRoomData_actions mo bd roomID cur target :
  only_actions (fun a => data_write target a \/
      exists n, a = ARemoveAll (bd ++ [n]) /\
        is_candidate (list_ascii_of_string roomID) (list_ascii_of_string cur)
                     (list_ascii_of_string n) = true)
    (mergeOldRoomData mo bd roomID cur target) /\
  only_actions (fun a => a <> ARemoveAll (bd ++ [cur])) (mergeOldRoomData mo bd roomID cur target).
Proof.
  assert (H : only_actions (fun a => data_write target a \/
      exists n, a = ARemoveAll (bd ++ [n]) /\
        is_candidate (list_ascii_of_string roomID) (list_ascii_of_string cur)
                     (list_ascii_of_string n) = true)
    (mergeOldRoomData mo bd roomID cur target)).
  { unfold mergeOldRoomData. apply only_bind; [apply only_try, only_readDir|intros r].
    destruct r as [es|[]]; try apply only_fail; try apply only_ret.
    apply only_bind; [apply only_merge_candidates|intros errs].
    destruct errs; [apply only_ret|apply only_fail]. }
  split; [exact H|]. eapply only_mono; [|exact H].
  intros a [(d & c & ->)|(n & -> & Hc)]; [discriminate|].
  intros E. injection E as E. apply app_inv_head in E. injection E as ->.
  rewrite is_candidate_self in Hc. discriminate.
Qed.

(** When no directory directly in the backup directory passes the
    candidate test, [mergeOldRoomData] does nothing: it succeeds and
    leaves the disk and the trace as they were. *)
Theorem mergeOldRoomData_idle mo bd roomID cur target w :
  w_fs w !! bd = Some EDir ->
  (forall n, w_fs w !! (bd ++ [n]) = Some EDir ->
     is_candidate (list_ascii_of_string roomID) (list_ascii_of_string cur)
                  (list_ascii_of_string n) = false) ->
  mergeOldRoomData mo bd roomID cur target w = (Ok tt, w).
Proof.
  intros Hbd Hn. unfold mergeOldRoomData, try. unfold bind at 1.
  rewrite (readDir_dir bd w Hbd). cbv beta iota.
  rewrite (bind_ok _ _ _ _ _ (merge_candidates_idle mo bd roomID cur target _ w
    (fun n Hin => Hn n (readDir_entry _ _ _ _ Hin)))).
  reflexivity.
Qed.

Lemma mergeOldRoomData_idle_witness :
  mergeOldRoomData listed_order ["backup"] "!zzz" "room" room0 world0 = (Ok tt, world0).
Proof.
  apply mergeOldRoomData_idle; [reflexivity|].
  intros n. simpl. rewrite !lookup_insert_Some, lookup_empty. intros H.
  destruct H as [[E _]|[_ [[E _]|[_ [=]]]]].
  - injection E as <-. reflexivity.
  - apply (f_equal length) in E. simpl in E. lia.
Defined.

(** When the backup directory cannot be listed because it is not a
    directory, [mergeOldRoomData] leaves disk and trace unchanged: it
    fails with [ENOTDIR] when a file sits at that path or on the way to
    it, and otherwise (the directory does not exist) succeeds. *)
Theorem mergeOldRoomData_no_backup_dir mo bd roomID cur target w :
  bd <> [] -> w_fs w !! bd <> Some EDir ->
  mergeOldRoomData mo bd roomID cur target w =
    (if existsb (is_file (w_fs w)) (prefixes bd) then Err (ENOTDIR bd) else Ok tt, w).
Proof.
  intros Hne Hbd. unfold mergeOldRoomData. unfold bind at 1, try at 1.
  rewrite (readDir_notdir bd w Hbd). cbv beta iota.
  rewrite (prefixes_removelast bd Hne), existsb_app. cbn [existsb].
  unfold is_file at 2. destruct (w_fs w !! bd) as [[c|]|] eqn:E; [|congruence|].
  - rewrite orb_true_r. reflexivity.
  - rewrite orb_false_r. unfold missing_error.
    destruct (existsb (is_file (w_fs w)) (prefixes (removelast bd))); reflexivity.
Qed.

Lemma mergeOldRoomData_no_backup_dir_witness :
  mergeOldRoomData listed_order ["gone"] "!r" "room" room0 world0 = (Ok tt, world0).
Proof.
  apply (mergeOldRoomData_no_backup_dir listed_order ["gone"] "!r" "room" room0 world0);
    [discriminate|vm_compute; discriminate].
Defined.

(** A run of [processSingleOldDirectory] that returns [nil] reached
    [os.RemoveAll] only after everything before it succeeded, and removed
    the old directory as its last action: the trace gains day-file writes
    of the target room followed by the removal, and no path at or below
    the old directory is left. *)
Theorem processSingleOldDirectory_outcome mo bd old target w w' :
  processSingleOldDirectory mo bd old target w = (Ok tt, w') ->
  exists ws, Forall (data_write target) ws /\
    w_trace w' = w_trace w ++ ws ++ [ARemoveAll (bd ++ [old])] /\
    forall k, prefix (bd ++ [old]) k -> w_fs w' !! k = None.
Proof.
  intros H. unfold processSingleOldDirectory in H. cbv zeta in H.
  destruct (readDir (bd ++ [old]) w) as [[files|e] w1] eqn:E1;
    [rewrite (bind_ok _ _ _ _ _ E1) in H|rewrite (bind_err _ _ _ _ _ E1) in H; discriminate H].
  pose proof (only_nil _ _ _ _ (only_readDir _ _) E1) as T1.
  destruct (collect_events (bd ++ [old]) files w1) as [[col|e] w2] eqn:E2;
    [rewrite (bind_ok _ _ _ _ _ E2) in H|rewrite (bind_err _ _ _ _ _ E2) in H; discriminate H].
  pose proof (only_nil _ _ _ _ (only_collect_events _ _ _) E2) as T2.
  set (mm := match col.1 with [] => ret tt | _ :: _ => processEvents mo target col.1 end) in H.
  assert (Hmm : only_actions (data_write target) mm)
    by (unfold mm; destruct col.1; [apply only_ret|apply only_processEvents]).
  destruct (mm w2) as [[u|e] w3] eqn:E3;
    [|rewrite (bind_err _ _ _ _ _ E3) in H; discriminate H].
  destruct (Hmm _ _ _ E3) as (ws & T3 & F3). rewrite T2, T1 in T3. exists ws. split; [exact F3|].
  rewrite (bind_ok _ _ _ _ _ E3) in H. unfold removeAll, bind, get_fs, put_fs, emit in H.
  simpl in H. injection H as <-. simpl. split.
  - rewrite T3, app_assoc. reflexivity.
  - intros k Hk. unfold remove_fs. apply map_lookup_filter_None. right.
    intros x _ Hn. apply Hn. exact Hk.
Qed.

Lemma processSingleOldDirectory_outcome_witness :
  exists ws, Forall (data_write new_room) ws /\
    w_trace (snd (processSingleOldDirectory listed_order ["backup"] "Old:!r" new_room world_old)) =
      w_trace world_old ++ ws ++ [ARemoveAll (["backup"] ++ ["Old:!r"])] /\
    forall k, prefix (["backup"] ++ ["Old:!r"]) k ->
      w_fs (snd (processSingleOldDirectory listed_order ["backup"] "Old:!r" new_room world_old)) !! k
        = None.
Proof.
  apply (processSingleOldDirectory_outcome listed_order ["backup"] "Old:!r" new_room world_old).
  vm_compute. reflexivity.
Defined.

(** With [MaxWhoamiRetries] unset ([<= 0]) and a server that keeps
    answering with retryable errors, the handshake never ends by itself:
    for any bound on the number of calls, it is still retrying when the
    bound is hit, having made one call and one 10-second sleep per round. *)
Theorem whoami_loop_unbounded M whoami fuel r :
  M <= 0 -> (forall i, exists e, whoami i = Some e /\ isRetryable e = true) ->
  snd (whoami_loop fuel M whoami r) = HFuel /\
  length (List.filter is_attempt (fst (whoami_loop fuel M whoami r))) = fuel /\
  length (List.filter is_sleep (fst (whoami_loop fuel M whoami r))) = fuel /\
  Forall (fun a => a = HSleep matrixConnectionRetryDelay \/ exists i, a = HWhoami i)
    (fst (whoami_loop fuel M whoami r)).
Proof.
  intros HM Hw. revert r. induction fuel as [|f IH]; intros r; [repeat split; constructor|].
  destruct (Hw r) as (e & He & Hr).
  rewrite (whoami_loop_retry M whoami e r f He Hr) by lia.
  destruct (whoami_loop f M whoami (r + 1)) as [tr o] eqn:E.
  destruct (IH (r + 1)) as (A & B & C & D). rewrite E in A, B, C, D. simpl in *.
  rewrite B, C. split; [exact A|]. split; [reflexivity|]. split; [reflexivity|].
  constructor; [right; exists r; reflexivity|]. constructor; [left; reflexivity|exact D].
Qed.

Lemma whoami_loop_unbounded_witness :
  snd (whoami_loop 5 0 (fun _ => Some e503) 0) = HFuel /\
  length (List.filter is_attempt (fst (whoami_loop 5 0 (fun _ => Some e503) 0))) = 5%nat.
Proof.
  destruct (whoami_loop_unbounded 0 (fun _ => Some e503) 5 0) as (A & B & _).
  - lia.
  - intros i. exists e503. split; reflexivity.
  - split; [exact A|exact B].
Defined.

(** When the first [k] calls fail with retryable errors, the next one
    succeeds, and the retry limit is unset or above [r + k], the handshake
    succeeds after [k] retries: [k + 1] calls with counters [r] to
    [r + k], separated by one 10-second sleep each. *)
Theorem whoami_loop_eventual_success M whoami k fuel r :
  (forall j, (j < k)%nat -> exists e, whoami (r + Z.of_nat j) = Some e /\ isRetryable e = true) ->
  whoami (r + Z.of_nat k) = None ->
  (M <= 0 \/ r + Z.of_nat k < M) -> (k < fuel)%nat ->
  whoami_loop fuel M whoami r = (give_up_trace r k, HOk).
Proof.
  revert fuel r. induction k as [|k IH]; intros [|f] r Hfail Hok HM Hf; try lia.
  - rewrite Z.add_0_r in Hok. simpl. rewrite Hok. reflexivity.
  - destruct (Hfail O ltac:(lia)) as (e & He & Hr). rewrite Z.add_0_r in He.
    rewrite (whoami_loop_retry M whoami e r f He Hr) by lia.
    rewrite (IH f (r + 1)); [reflexivity| | |lia|lia].
    + intros j Hj. replace (r + 1 + Z.of_nat j) with (r + Z.of_nat (S j)) by lia.
      apply Hfail. lia.
    + replace (r + 1 + Z.of_nat k) with (r + Z.of_nat (S k)) by lia. exact Hok.
Qed.

Lemma whoami_loop_eventual_success_witness :
  whoami_loop 5 3 (fun i => if i <? 2 then Some e503 else None) 0 = (give_up_trace 0 2, HOk).
Proof.
  apply whoami_loop_eventual_success.
  - intros j Hj. exists e503. split; [|reflexivity].
    destruct j as [|[|]]; [reflexivity|reflexivity|lia].
  - reflexivity.
  - right. lia.
  - lia.
Defined.

Module NameFacts.
Import Sanitize SanitizeFacts DirKey DirKeyFacts.

Lemma no_dbl_infix p q : no_dbl (p ++ underscore :: underscore :: q) = false.
Proof.
  destruct (no_dbl (p ++ underscore :: underscore :: q)) eqn:E; [|reflexivity].
  apply no_dbl_app_r in E. discriminate.
Qed.

Lemma not_in_safe c s : unsafe c = true -> Forall (fun c => unsafe c = false) s -> ~ In c s.
Proof. intros Hc Hs Hin. rewrite List.Forall_forall in Hs. rewrite (Hs c Hin) in Hc. discriminate. Qed.

Lemma string_of_list_ascii_inj a b : string_of_list_ascii a = string_of_list_ascii b -> a = b.
Proof.
  intros E. rewrite <- (list_ascii_of_string_of_list_ascii a), <- (list_ascii_of_string_of_list_ascii b).
  by rewrite E.
Qed.

End NameFacts.
Import NameFacts.

(** A sanitized name is a safe single path component: it holds no [/] and
    no backslash, is neither [.] nor [..], and is either the single
    underscore or a name with no unsafe byte, no two adjacent underscores,
    and no underscore, space or dot at either end. *)
Theorem sanitizeFilename_safe_component x :
  let s := sanitizeFilename x in
  ~ In "/"%char s /\ ~ In (ascii_of_nat 92) s /\ s <> B "." /\ s <> B ".." /\
  (s = B "_" \/
   (Forall (fun c => unsafe c = false) s /\
    (forall p q, s <> p ++ underscore :: underscore :: q) /\
    (forall c t, s = c :: t -> cut c = false) /\
    (forall c t, rev s = c :: t -> cut c = false))).
Proof.
  cbv zeta. pose proof (sanitize_safe x) as Hs.
  split; [apply not_in_safe; [reflexivity|exact Hs]|].
  split; [apply not_in_safe; [reflexivity|exact Hs]|].
  destruct (sanitize_shape x) as [E|[(Hs' & Hd & Hh & Hl) Hne]].
  - rewrite E. split; [discriminate|]. split; [discriminate|]. left. reflexivity.
  - split; [intros E; rewrite E in Hh; discriminate (Hh _ _ eq_refl)|].
    split; [intros E; rewrite E in Hh; discriminate (Hh _ _ eq_refl)|].
    right. split; [exact Hs'|]. split; [|split; [exact Hh|exact Hl]].
    intros p q E. rewrite E, no_dbl_infix in Hd. discriminate.
Qed.

(** Rooms with different ids never share a directory: for well-formed
    room ids (a leading [!] and no [":!"] inside), equal directory names
    [sanitizeFilename(name) + ":" + roomID] imply equal room ids, whatever
    the display names. *)
Theorem room_dir_injective_on_ids name name' roomID roomID' :
  room_id_ok (list_ascii_of_string roomID) -> room_id_ok (list_ascii_of_string roomID') ->
  room_dir name roomID = room_dir name' roomID' -> roomID = roomID'.
Proof.
  intros H H' E. unfold room_dir in E. apply string_of_list_ascii_inj in E.
  pose proof (extract_roomDirName (list_ascii_of_string name) _ H) as X.
  rewrite E, (extract_roomDirName (list_ascii_of_string name') _ H') in X.
  injection X as X.
  rewrite <- (string_of_list_ascii_of_string roomID), <- (string_of_list_ascii_of_string roomID').
  by rewrite X.
Qed.

Lemma room_dir_injective_on_ids_witness :
  room_dir "Alice" "!a:x" <> room_dir "Alice" "!b:x".
Proof.
  intros E. apply room_dir_injective_on_ids in E; [discriminate|split; reflexivity|split; reflexivity].
Defined.

Module StartFacts.
Import Store Backup View TraceFacts MergeFacts LoopFacts.

Lemma mkdir_walk_dirs qs fs : (forall q, In q qs -> fs !! q = Some EDir) -> mkdir_walk qs fs = Ok fs.
Proof.
  induction qs as [|q qs IH]; intros H; [reflexivity|]. simpl.
  rewrite (H q (or_introl eq_refl)). apply IH. intros q' Hq'. apply H. right. exact Hq'.
Qed.

Lemma mkdirAll_existing p w :
  (forall q, In q (prefixes p) -> w_fs w !! q = Some EDir) -> mkdirAll p w = (Ok tt, w).
Proof.
  intros H. unfold mkdirAll, bind, get_fs. cbn. rewrite (mkdir_walk_dirs _ _ H).
  destruct w. reflexivity.
Qed.

Lemma readMetadata_missing rp w :
  (forall q, In q (prefixes rp) -> w_fs w !! q = Some EDir) ->
  w_fs w !! (rp ++ [metadataFilename]) = None -> readMetadata rp w = (Ok EmptyString, w).
Proof.
  intros Hp E. unfold readMetadata, try, readFile, bind, get_fs, ret, fail. cbn.
  rewrite E. rewrite (missing_error_room _ _ _ Hp). reflexivity.
Qed.

Lemma readMetadata_undecodable rp w c :
  w_fs w !! (rp ++ [metadataFilename]) = Some (EFile c) -> (forall t, c <> CMeta t) ->
  readMetadata rp w = (Err (EDecode (rp ++ [metadataFilename])), w).
Proof.
  intros E Hc. unfold readMetadata, try, readFile, bind, get_fs, ret, fail. cbn. rewrite E.
  destruct c as [l|t|b]; [reflexivity|exfalso; exact (Hc t eq_refl)|reflexivity].
Qed.

Lemma only_true_fetch_loop mo remote fuel rp cur total :
  only_actions (fun _ => True) (fetch_loop mo remote fuel rp cur total).
Proof.
  intros w r w' H. destruct (fetch_loop_trace _ _ _ _ _ _ _ _ _ H) as (ws & T & F & _).
  exists ws. split; [exact T|]. eapply Forall_impl; [exact F|auto].
Qed.

Lemma fetch_loop_first mo remote f rp cur total w r w' :
  fetch_loop mo remote (S f) rp cur total w = (r, w') ->
  exists ws, w_trace w' = w_trace w ++ AFetch cur :: ws.
Proof.
  intros H. simpl in H. unfold bind at 1, emit at 1 in H.
  set (w1 := mkWorld (w_fs w) (w_trace w ++ [AFetch cur]) (w_tick w)) in H.
  assert (Hk : only_actions (fun _ => True)
    (match remote cur with
     | Some (chunk, nextToken) =>
         match chunk with
         | [] => ret (cur, total, None)
         | _ :: _ =>
             let* r := try (processEvents mo rp chunk) in
             match r with
             | Ok _ =>
                 if String.eqb cur nextToken then ret (cur, (total + length chunk)%nat, None)
                 else let* _ := emit ASleep in
                      fetch_loop mo remote f rp nextToken (total + length chunk)
             | Err e => ret (cur, total, Some e)
             end
         end
     | None => ret (cur, total, Some (EFetch cur))
     end)).
  { destruct (remote cur) as [[[|x xs] nxt]|]; [apply only_ret| |apply only_ret].
    apply only_bind; [apply only_try; eapply only_mono; [|apply only_processEvents]; auto|].
    intros [u|e]; [|apply only_ret]. destruct (String.eqb cur nxt); [apply only_ret|].
    apply only_bind; [apply only_emit; exact I|intros _; apply only_true_fetch_loop]. }
  destruct (Hk _ _ _ H) as (ws & T & _). exists ws. rewrite T. simpl. rewrite <- app_assoc. reflexivity.
Qed.

Lemma only_true_update rp old t : only_actions (fun _ => True) (updateMetadataToken rp old t).
Proof.
  unfold updateMetadataToken. destruct (String.eqb t old); [apply only_ret|].
  apply only_bind; [apply only_try, only_writeFile; exact I|intros _; apply only_ret].
Qed.

Lemma backupRoom_from_token mo remote f bd name id w tok :
  (forall q, In q (prefixes (bd ++ [room_dir name id])) -> w_fs w !! q = Some EDir) ->
  readMetadata (bd ++ [room_dir name id]) w = (Ok tok, w) ->
  exists ws, w_trace (snd (backupRoom mo remote (S f) bd name id w)) = w_trace w ++ AFetch tok :: ws.
Proof.
  intros Hp Hr. unfold backupRoom. cbv zeta.
  rewrite (bind_ok _ _ _ _ _ (mkdirAll_existing _ _ Hp)), (bind_ok _ _ _ _ _ Hr).
  unfold bind at 1.
  destruct (fetch_loop mo remote (S f) (bd ++ [room_dir name id]) tok 0 w) as [r1 w1] eqn:E.
  destruct (fetch_loop_first _ _ _ _ _ _ _ _ _ E) as (ws & T).
  destruct r1 as [[[t n] [e|]]|e]; simpl; [exists ws; exact T| |exists ws; exact T].
  destruct (updateMetadataToken (bd ++ [room_dir name id]) tok t w1) as [r2 w2] eqn:E2.
  destruct (only_true_update _ _ _ _ _ _ E2) as (ws2 & T2 & _).
  exists (ws ++ ws2). simpl. rewrite T2, T. rewrite <- app_assoc. reflexivity.
Qed.

End StartFacts.
Import StartFacts.

(** [backupRoom] resumes from the stored checkpoint: in an existing room
    directory, its first action is a request for the stored token, or for
    the empty token (start of history) when there is no metadata file;
    when the metadata file does not decode, it fails with a decoding error
    before any request and changes nothing. *)
Theorem backupRoom_first_request mo remote f bd name id w :
  (forall q, In q (prefixes (bd ++ [room_dir name id])) -> w_fs w !! q = Some EDir) ->
  (w_fs w !! ((bd ++ [room_dir name id]) ++ [metadataFilename]) = None ->
   exists ws, w_trace (snd (backupRoom mo remote (S f) bd name id w)) =
              w_trace w ++ AFetch EmptyString :: ws) /\
  (forall t, w_fs w !! ((bd ++ [room_dir name id]) ++ [metadataFilename]) = Some (EFile (CMeta t)) ->
   exists ws, w_trace (snd (backupRoom mo remote (S f) bd name id w)) = w_trace w ++ AFetch t :: ws) /\
  (forall c, w_fs w !! ((bd ++ [room_dir name id]) ++ [metadataFilename]) = Some (EFile c) ->
   (forall t, c <> CMeta t) ->
   backupRoom mo remote (S f) bd name id w =
     (Err (EDecode ((bd ++ [room_dir name id]) ++ [metadataFilename])), w)).
Proof.
  intros Hp. split; [|split].
  - intros E. apply backupRoom_from_token; [exact Hp|]. apply readMetadata_missing; assumption.
  - intros t E. apply backupRoom_from_token; [exact Hp|]. apply readMetadata_written. exact E.
  - intros c E Hc. unfold backupRoom. cbv zeta.
    rewrite (bind_ok _ _ _ _ _ (mkdirAll_existing _ _ Hp)).
    rewrite (bind_err _ _ _ _ _ (readMetadata_undecodable _ _ _ E Hc)). reflexivity.
Qed.

Lemma backupRoom_first_request_witness :
  exists ws,
    w_trace (snd (backupRoom listed_order remote1 1 ["backup"] "Alice" "!room1:x"
                    (snd (backupRoom listed_order remote1 10 ["backup"] "Alice" "!room1:x" world_b)))) =
    w_trace (snd (backupRoom listed_order remote1 10 ["backup"] "Alice" "!room1:x" world_b)) ++
      [AFetch "t2"] ++ ws.
Proof.
  destruct (backupRoom_first_request listed_order remote1 0 ["backup"] "Alice" "!room1:x"
              (snd (backupRoom listed_order remote1 10 ["backup"] "Alice" "!room1:x" world_b)))
    as (_ & Ht & _).
  - intros q Hq. vm_compute in Hq. destruct Hq as [<-|[<-|[]]]; vm_compute; reflexivity.
  - destruct (Ht "t2"%string) as (ws & T); [vm_compute; reflexivity|]. exists ws. exact T.
Defined.

(** What [processSingleOldDirectory] collects from a listing of the old
    directory: the events of each listed file whose name ends in [.json]
    and is not [metadata.json] and whose content decodes as an event
    array, in listing order; a decoding error for each such file that does
    not decode; subdirectories and other files are skipped. Nothing is
    changed. *)
Theorem collect_events_listing o files w :
  (forall n c, In (n, EFile c) files -> w_fs w !! (o ++ [n]) = Some (EFile c)) ->
  collect_events o files w =
    (Ok (concat (map (fun nk : string * entry =>
                        match nk.2 with
                        | EFile (CEvents l) =>
                            if String.eqb nk.1 metadataFilename then []
                            else if has_suffix nk.1 ".json" then l else []
                        | _ => []
                        end) files),
         concat (map (fun nk : string * entry =>
                        match nk.2 with
                        | EFile (CEvents _) | EDir => []
                        | EFile _ =>
                            if String.eqb nk.1 metadataFilename then []
                            else if has_suffix nk.1 ".json" then [EDecode (o ++ [nk.1])] else []
                        end) files)), w).
Proof.
  induction files as [|[n k] rest IH]; intros H; [reflexivity|].
  pose proof (IH (fun n' c' Hin => H n' c' (or_intror Hin))) as Hr. clear IH.
  cbn [collect_events].
  assert (Hb : forall here,
    (let* acc := collect_events o rest in ret (here.1 ++ acc.1, here.2 ++ acc.2)) w =
    (Ok (here.1 ++ concat (map (fun nk : string * entry =>
                        match nk.2 with
                        | EFile (CEvents l) =>
                            if String.eqb nk.1 metadataFilename then []
                            else if has_suffix nk.1 ".json" then l else []
                        | _ => []
                        end) rest),
         here.2 ++ concat (map (fun nk : string * entry =>
                        match nk.2 with
                        | EFile (CEvents _) | EDir => []
                        | EFile _ =>
                            if String.eqb nk.1 metadataFilename then []
                            else if has_suffix nk.1 ".json" then [EDecode (o ++ [nk.1])] else []
                        end) rest)), w)).
  { intros here. rewrite (bind_ok _ _ _ _ _ Hr). reflexivity. }
  destruct k as [c|].
  - destruct (String.eqb n metadataFilename) eqn:Em.
    + rewrite (bind_ok _ _ _ _ _ (eq_refl : ret ([], []) w = (Ok ([], []), w))), Hb.
      cbn. rewrite Em. destruct c; reflexivity.
    + destruct (has_suffix n ".json") eqn:Es; cbn [negb].
      * assert (Hf : (let* r := try (readFile (o ++ [n])) in
                      match r with
                      | Ok (CEvents l) => ret (l, [])
                      | Ok _ => ret ([], [EDecode (o ++ [n])])
                      | Err e => ret ([], [e])
                      end) w =
                     (Ok (match c with CEvents l => (l, []) | _ => ([], [EDecode (o ++ [n])]) end), w)).
        { unfold bind at 1, try, readFile, get_fs. unfold bind at 1. cbn.
          rewrite (H n c (or_introl eq_refl)). destruct c; reflexivity. }
        rewrite (bind_ok _ _ _ _ _ Hf), Hb. cbn. rewrite Em, Es. destruct c; reflexivity.
      * rewrite (bind_ok _ _ _ _ _ (eq_refl : ret ([], []) w = (Ok ([], []), w))), Hb.
        cbn. rewrite Em, Es. destruct c; reflexivity.
  - rewrite (bind_ok _ _ _ _ _ (eq_refl : ret ([], []) w = (Ok ([], []), w))), Hb. reflexivity.
Qed.

Lemma collect_events_listing_witness :
  collect_events old_room
    [("2024-01-15.json"%string, EFile (CEvents [ev1])); ("metadata.json"%string, EFile (CMeta "t"))]
    world_old =
  (Ok ([ev1], []), world_old).
Proof.
  rewrite collect_events_listing; [reflexivity|].
  intros n c [E|[E|[]]]; injection E as <- <-; vm_compute; reflexivity.
Defined.
